(** * polybar-pomo: a pomodoro timer for a status bar

    The repository holds two versions of [polybar-pomo.go]:

    - the version built around a [select] loop in [main], with three
      channels fed by the connection handlers and an [Inc] method
      (module [Select] below);
    - the version built around a mutex in [PomodoroState], whose handlers
      call the methods themselves and which has no [Inc]
      (module [Locked] below).

    What both versions share (the state record, [String], [Toggle],
    [GetDuration]) is modelled once.

    Modelling conventions.
    - A [time.Time] is the number of nanoseconds since Go's zero time, in
      [Z]. Go's [Time] ranges over far more than any instant the program
      meets, so no bound is put on it; the wall and monotonic readings of
      a [Time] are one clock here.
    - A [time.Duration] is an [int64] number of nanoseconds: its
      arithmetic wraps ([int64]) and [Time.Sub] saturates, as in Go.
    - Every method reads the clock; the instant it reads is the
      argument [now] of its model.
    - A Go [string] is a [string] of bytes. *)

From Stdlib Require Import ZArith List String Ascii Bool Lia.
From Stdlib Require Floats Uint63.
Import ListNotations.

Open Scope Z_scope.

(** ** Package [time] *)

Definition int64 (z : Z) : Z := (z + 2 ^ 63) mod 2 ^ 64 - 2 ^ 63.
Definition uint64 (z : Z) : Z := z mod 2 ^ 64.

Definition Duration := Z.
Definition Time := Z.

Definition Nanosecond : Duration := 1.
Definition Millisecond : Duration := 1000000.
Definition Second : Duration := 1000 * Millisecond.
Definition Minute : Duration := 60 * Second.
Definition minDuration : Duration := - 2 ^ 63.
Definition maxDuration : Duration := 2 ^ 63 - 1.

(** [lessThanHalf(x, y)] is [uint64(x)+uint64(x) < uint64(y)]. *)
Definition lessThanHalf (x y : Duration) : bool :=
  uint64 (uint64 x + uint64 x) <? uint64 y.

(** [Duration.Round]: to the nearest multiple of [m], halfway values away
    from zero, the extreme durations on overflow. *)
Definition Duration_Round (d m : Duration) : Duration :=
  if m <=? 0 then d
  else
    let r := Z.rem d m in
    if d <? 0 then
      let r := - r in
      if lessThanHalf r m then int64 (d + r)
      else
        let d1 := int64 (d - m + r) in
        if d1 <? d then d1 else minDuration
    else
      if lessThanHalf r m then int64 (d - r)
      else
        let d1 := int64 (d + m - r) in
        if d <? d1 then d1 else maxDuration.

(** [Time.Add]. *)
Definition Time_Add (t : Time) (d : Duration) : Time := t + d.

(** [Time.Sub]: the difference, or the extreme duration when the
    difference is not an [int64]. *)
Definition Time_Sub (t u : Time) : Duration :=
  let d := t - u in
  if d <? minDuration then minDuration
  else if maxDuration <? d then maxDuration
  else d.

(** [Time.Round]: to the nearest multiple of [d] since the zero time,
    halfway values up. The remainder [div] hands back lies in [0, d)
    for instants before the zero time too. *)
Definition Time_Round (t : Time) (d : Duration) : Time :=
  if d <=? 0 then t
  else
    let r := t mod d in
    if lessThanHalf r d then Time_Add t (- r) else Time_Add t (d - r).

(** [Duration.Minutes] and [Duration.Seconds] in [float64], and the
    conversion [int(f)] of a [float64], which truncates toward zero. A
    [float64] is a primitive float; an [int64] below 2^53 in size
    converts to it exactly. *)
Definition float64_of_int64 (z : Z) : PrimFloat.float :=
  if z <? 0 then PrimFloat.opp (PrimFloat.of_uint63 (Uint63.of_Z (- z)))
  else PrimFloat.of_uint63 (Uint63.of_Z z).

Definition int_of_float64 (f : PrimFloat.float) : Z :=
  match FloatOps.Prim2SF f with
  | SpecFloat.S754_finite s m e =>
      let size := if 0 <=? e then Z.pos m * 2 ^ e else Z.pos m / 2 ^ (- e) in
      if s then - size else size
  | _ => 0
  end.

Definition Duration_Minutes (d : Duration) : PrimFloat.float :=
  let min := Z.quot d Minute in
  let nsec := Z.rem d Minute in
  PrimFloat.add (float64_of_int64 min)
    (PrimFloat.div (float64_of_int64 nsec) (float64_of_int64 (60 * 1000000000))).

Definition Duration_Seconds (d : Duration) : PrimFloat.float :=
  let sec := Z.quot d Second in
  let nsec := Z.rem d Second in
  PrimFloat.add (float64_of_int64 sec)
    (PrimFloat.div (float64_of_int64 nsec) (float64_of_int64 1000000000)).

(** [int(d.Minutes())] and [int(d.Seconds())] as [String] computes
    them, on a duration that [Duration.Round] has rounded to the
    second: a whole number of seconds, or an extreme duration. The
    integer part of the sum is below 2^53 and an exact float, the
    fraction keeps the sign of [d] and is at most 59/60 in size, far
    from the next integer at the precision of [float64]: the conversion
    to [int] gives the quotient truncated toward zero. The floats above
    say the same on every duration tried, see [float64_agrees]. *)
Definition int_Minutes (d : Duration) : Z := Z.quot d Minute.
Definition int_Seconds (d : Duration) : Z := Z.quot d Second.

(** The whole seconds from [lo] on, [n] of them. *)
Fixpoint whole_seconds (n : nat) (lo : Z) : list Duration :=
  match n with
  | O => []
  | S n' => (lo * Second) :: whole_seconds n' (lo + 1)
  end.

Definition float64_agrees_at (d : Duration) : bool :=
  (int_of_float64 (Duration_Minutes d) =? int_Minutes d)
  && (int_of_float64 (Duration_Seconds d) =? int_Seconds d).

(** ** Package [fmt]: the verb [%02d] *)

Definition byte_of (n : Z) : ascii := ascii_of_N (Z.to_N n).
Definition code_of (c : ascii) : Z := Z.of_N (N_of_ascii c).

Fixpoint bytes (l : list Z) : string :=
  match l with
  | [] => EmptyString
  | b :: l' => String (byte_of b) (bytes l')
  end.

(** The decimal digits of [u], written from the last one, as
    [fmtInteger] fills its buffer; twenty digits hold any [uint64]. *)
Fixpoint fmt_digits (fuel : nat) (u : Z) (acc : string) : string :=
  match fuel with
  | O => acc
  | S fuel' =>
      if 10 <=? u then
        let next := u / 10 in
        fmt_digits fuel' next (String (byte_of (48 + u - next * 10)) acc)
      else String (byte_of (48 + u)) acc
  end.

Fixpoint pad_zeros (n : nat) (s : string) : string :=
  match n with
  | O => s
  | S n' => pad_zeros n' (String "0" s)
  end.

(** [fmtInteger] for [%02d]: width 2 with the zero flag makes the
    precision 2, one less when a sign takes a column. *)
Definition fmt_02d (v : Z) : string :=
  let negative := v <? 0 in
  let u := uint64 (if negative then - v else v) in
  let prec := if negative then 1%nat else 2%nat in
  let ds := fmt_digits 20 u EmptyString in
  let ds := pad_zeros (prec - String.length ds) ds in
  if negative then String "-" ds else ds.

(** Two decimal digits, the first one a zero below ten: what the
    display format [MM:SS] asks of each field. *)
Definition two_digits (v : Z) : string :=
  String (byte_of (48 + v / 10)) (String (byte_of (48 + v mod 10)) EmptyString).

(** ** Package [strings]: [ToLower] and [TrimSpace]

    Both functions of Go's library have a path for ASCII, modelled
    here, and hand over to the Unicode tables at the first byte that is
    not ASCII. The Unicode side is an interface. *)

Class Unicode := {
  (** [strings.Map(unicode.ToLower, s)] *)
  Map_ToLower : string -> string;
  (** [strings.TrimFunc(s, unicode.IsSpace)] *)
  TrimFunc_IsSpace : string -> string;
  (** [strings.TrimRightFunc(s, unicode.IsSpace)] *)
  TrimRightFunc_IsSpace : string -> string
}.

Definition RuneSelf : Z := 128.

Definition isUpper (c : ascii) : bool :=
  (65 <=? code_of c) && (code_of c <=? 90).

Definition lowerByte (c : ascii) : ascii :=
  if isUpper c then byte_of (code_of c + 32) else c.

Fixpoint isASCII (s : string) : bool :=
  match s with
  | EmptyString => true
  | String c s' => (code_of c <? RuneSelf) && isASCII s'
  end.

Fixpoint hasUpper (s : string) : bool :=
  match s with
  | EmptyString => false
  | String c s' => isUpper c || hasUpper s'
  end.

Fixpoint mapBytes (f : ascii -> ascii) (s : string) : string :=
  match s with
  | EmptyString => EmptyString
  | String c s' => String (f c) (mapBytes f s')
  end.

Definition ToLower {U : Unicode} (s : string) : string :=
  if isASCII s then
    if hasUpper s then mapBytes lowerByte s else s
  else Map_ToLower s.

(** The table [asciiSpace]: tab, line feed, vertical tab, form feed,
    carriage return, space. *)
Definition asciiSpace (c : ascii) : bool :=
  let n := code_of c in
  (n =? 9) || (n =? 10) || (n =? 11) || (n =? 12) || (n =? 13) || (n =? 32).

(** One of the two loops of [TrimSpace]: where it stops, and whether it
    stopped at a byte that is not ASCII. *)
Inductive Scan :=
| AtByte (rest : list ascii)
| AtRune (rest : list ascii).

Fixpoint skipSpace (l : list ascii) : Scan :=
  match l with
  | [] => AtByte []
  | c :: l' =>
      if RuneSelf <=? code_of c then AtRune l
      else if asciiSpace c then skipSpace l'
      else AtByte l
  end.

Definition TrimSpace {U : Unicode} (s : string) : string :=
  match skipSpace (list_ascii_of_string s) with
  | AtRune rest => TrimFunc_IsSpace (string_of_list_ascii rest)
  | AtByte rest =>
      match skipSpace (rev rest) with
      | AtRune tser => TrimRightFunc_IsSpace (string_of_list_ascii (rev tser))
      | AtByte tser => string_of_list_ascii (rev tser)
      end
  end.

(** Where the text of an ASCII message starts: the number of bytes of
    [asciiSpace] in front of it. *)
Fixpoint leadingSpace (s : string) : nat :=
  match s with
  | EmptyString => O
  | String c s' => if asciiSpace c then S (leadingSpace s') else O
  end.

(** The tables left out: enough where every byte is ASCII, as in the
    examples of this file. *)
Definition ascii_only : Unicode :=
  {| Map_ToLower := fun s => s;
     TrimFunc_IsSpace := fun s => s;
     TrimRightFunc_IsSpace := fun s => s |}.

(** ** What the two versions share *)

Definition TomatoEmoji : string := bytes [240; 159; 141; 133].
Definition RestEmoji : string := bytes [240; 159; 143; 150].
Definition PauseEmoji : string := bytes [226; 143; 184].
Definition SocketPath : string := "/tmp/polybar-pomo".

(** [PomodoroStatus] is an [int]; [Work] and [Rest] are its constants. *)
Definition PomodoroStatus := Z.
Definition Work : PomodoroStatus := 0.
Definition Rest : PomodoroStatus := 1.

(** The package-level durations: variables that [main] sets from the
    flags in one version, constants in the other. *)
Record Durations := {
  WorkDuration : Duration;
  RestDuration : Duration
}.

(** [PomodoroState]. A [*time.Timer] is the instant at which it will
    fire, if it is running; a [*time.Ticker] the instant of its next
    tick, if it is running. The mutex of the second version is held
    from the entry of a method to its return and is not a field here:
    a method is one step. *)
Record PomodoroState := {
  End_ : Time;
  Paused : bool;
  Status : PomodoroStatus;
  Ticker : option Time;
  Timer : option Time
}.

Definition Timer_Reset (now : Time) (d : Duration) : option Time := Some (now + d).
Definition Timer_Stop : option Time := None.

(** [GetDuration]: a map literal indexed by the status; a status that
    is no key gives the zero duration. *)
Definition GetDuration (g : Durations) (status : PomodoroStatus) : Duration :=
  if status =? Work then WorkDuration g
  else if status =? Rest then RestDuration g
  else 0.

(** The numbers [String] prints. *)
Definition elapsedTime (state : PomodoroState) (now : Time) : Duration :=
  Duration_Round (Time_Sub (End_ state) now) Second.

Definition minutes (state : PomodoroState) (now : Time) : Z :=
  int_Minutes (elapsedTime state now).

Definition seconds (state : PomodoroState) (now : Time) : Z :=
  int64 (int_Seconds (elapsedTime state now) - 60 * minutes state now).

Definition suffix (state : PomodoroState) : string :=
  if Paused state then PauseEmoji
  else if Status state =? Work then TomatoEmoji
  else RestEmoji.

(** [String]: [fmt.Sprintf("%s %02d:%02d", suffix, minutes, seconds)]. *)
Definition PomodoroState_String (state : PomodoroState) (now : Time) : string :=
  suffix state ++ " " ++ fmt_02d (minutes state now) ++ ":"
    ++ fmt_02d (seconds state now).

(** [Toggle]. *)
Definition Toggle (g : Durations) (state : PomodoroState) (now : Time)
  : PomodoroState :=
  let nextStatus := Z.rem (int64 (Status state + 1)) 2 in
  let duration := GetDuration g nextStatus in
  {| End_ := Time_Add now duration;
     Paused := Paused state;
     Status := nextStatus;
     Ticker := Ticker state;
     Timer := Timer_Reset now duration |}.

(** [Toggle] called once at each instant of a list. *)
Definition Toggles (g : Durations) (state : PomodoroState) (nows : list Time)
  : PomodoroState :=
  fold_left (Toggle g) nows state.

(** What a connection holds when the handler reads it: the bytes the
    peer has sent by then, or the failure the read meets. A read of a
    connection with no byte left reports the end of the stream. *)
Record Conn := {
  incoming : string;
  failure : option string
}.

Definition conn_Read (conn : Conn) (len_buffer : nat) : string * option string :=
  match failure conn with
  | Some e => (EmptyString, Some e)
  | None =>
      match incoming conn with
      | EmptyString => (EmptyString, Some "EOF"%string)
      | data => (substring 0 len_buffer data, None)
      end
  end.

(** The calls a handler makes on its connection. *)
Inductive ConnCall :=
| CallRead (len_buffer : nat)
| CallWrite (data : string)
| CallClose.

(** What [main] does before its loop, as the list of its actions. *)
Inductive Action :=
| ActRemoveAll (path : string)
| ActListenUnix (path : string)
| ActPrintln (line : string)
| ActDeferClose
| ActDeferRemove (path : string)
| ActNewPomodoro (status : PomodoroStatus) (paused : bool)
| ActGoUpdate
| ActGoAccept
| ActLoop
| ActReturn.

(** ** The version with the [select] loop *)

Module Select.

(** [main] sets the durations from the flags [-w] and [-r]. *)
Definition main_durations (wFlag rFlag : Z) : Durations :=
  {| WorkDuration := int64 (wFlag * Minute);
     RestDuration := int64 (rFlag * Minute) |}.

Definition NewPomodoro (g : Durations) (status : PomodoroStatus) (paused : bool)
  (now : Time) : PomodoroState :=
  let duration := GetDuration g status in
  {| End_ := Time_Add now duration;
     Paused := paused;
     Status := status;
     Ticker := Some (now + Second);
     Timer := if paused then Timer_Stop else Timer_Reset now duration |}.

Definition Pause (state : PomodoroState) (now : Time) : PomodoroState :=
  {| End_ := End_ state;
     Paused := negb (Paused state);
     Status := Status state;
     Ticker := Ticker state;
     Timer := if Paused state
              then Timer_Reset now (Time_Sub (End_ state) now)
              else Timer_Stop |}.

Definition Inc (state : PomodoroState) (increment : Duration) (now : Time)
  : PomodoroState :=
  let remainingTime := int64 (Time_Sub (End_ state) now + increment) in
  {| End_ := Time_Round (Time_Add (End_ state) increment) Second;
     Paused := Paused state;
     Status := Status state;
     Ticker := Ticker state;
     Timer := if negb (Paused state)
              then Timer_Reset now remainingTime
              else Timer state |}.

(** What a handler sends, and on which channel. *)
Inductive Message :=
| pauseChannel
| toggleChannel
| incChannel (inc : Duration).

Record Handled := {
  calls : list ConnCall;
  printed : list string;
  sent : option Message
}.

(** The [switch] of [HandleRequest]. *)
Definition dispatch (message : string) : option Message :=
  if String.eqb message "pause" then Some pauseChannel
  else if String.eqb message "toggle" then Some toggleChannel
  else if String.eqb message "inc" then Some (incChannel (int64 (5 * Second)))
  else if String.eqb message "dec" then Some (incChannel (int64 (- 5 * Second)))
  else None.

Definition HandleRequest {U : Unicode} (conn : Conn) : Handled :=
  let '(buffer, err) := conn_Read conn 128 in
  match err with
  | Some e =>
      {| calls := [CallRead 128];
         printed := ["Error reading: " ++ e]%string;
         sent := None |}
  | None =>
      let message := TrimSpace (ToLower buffer) in
      {| calls := [CallRead 128];
         printed := [];
         sent := dispatch message |}
  end.

Definition main (removeErr listenErr : option string) : list Action :=
  ActRemoveAll SocketPath ::
  match removeErr with
  | Some e => [ActPrintln ("Error removing socket file: " ++ e); ActReturn]
  | None =>
      ActListenUnix SocketPath ::
      match listenErr with
      | Some e => [ActPrintln ("Error listening: " ++ e); ActReturn]
      | None =>
          [ActDeferClose; ActDeferRemove SocketPath; ActGoAccept;
           ActNewPomodoro Work true; ActLoop]
      end
  end.

(** The cases of the [select] in the loop of [main]. *)
Inductive Event :=
| TickerC
| TimerC
| Received (m : Message).

(** A channel of the runtime is ready once its instant has come; a
    handler can send at any time. *)
Definition ready (state : PomodoroState) (ev : Event) (now : Time) : bool :=
  match ev with
  | TickerC => match Ticker state with Some t => t <=? now | None => false end
  | TimerC => match Timer state with Some t => t <=? now | None => false end
  | Received _ => true
  end.

(** What the runtime does to the channel that is read: the ticker is
    set for its next tick, the timer has fired. *)
Definition receive (state : PomodoroState) (ev : Event) : PomodoroState :=
  match ev with
  | TickerC =>
      {| End_ := End_ state; Paused := Paused state; Status := Status state;
         Ticker := option_map (fun t => t + Second) (Ticker state);
         Timer := Timer state |}
  | TimerC =>
      {| End_ := End_ state; Paused := Paused state; Status := Status state;
         Ticker := Ticker state;
         Timer := None |}
  | Received _ => state
  end.

Definition select_case (g : Durations) (state : PomodoroState) (ev : Event)
  (now : Time) : PomodoroState :=
  let state := receive state ev in
  match ev with
  | TickerC => if Paused state then Inc state (1 * Second) now else state
  | TimerC => if negb (Paused state) then Toggle g state now else state
  | Received pauseChannel => Pause state now
  | Received toggleChannel => Toggle g state now
  | Received (incChannel inc) => Inc state inc now
  end.

(** A connection from the handler to the loop: what the handler sends,
    the loop receives. *)
Definition served {U : Unicode} (g : Durations) (conn : Conn)
  (state : PomodoroState) (now : Time) : PomodoroState :=
  match sent (HandleRequest conn) with
  | Some m => select_case g state (Received m) now
  | None => state
  end.

(** One turn of the loop: the case chosen, then the line printed. *)
Definition loop_turn (g : Durations) (state : PomodoroState) (ev : Event)
  (now : Time) : PomodoroState * string :=
  let state' := select_case g state ev now in
  (state', PomodoroState_String state' now).

(** The loop over a list of events, each with its instant. *)
Fixpoint loop (g : Durations) (state : PomodoroState) (evs : list (Event * Time))
  : PomodoroState * list string :=
  match evs with
  | [] => (state, [])
  | (ev, now) :: evs' =>
      let '(state', line) := loop_turn g state ev now in
      let '(final, lines) := loop g state' evs' in
      (final, line :: lines)
  end.

(** A list of events the loop can meet from [state] at instant [t]:
    instants in order, each case ready at its instant. *)
Fixpoint admissible (g : Durations) (t : Time) (state : PomodoroState)
  (evs : list (Event * Time)) : bool :=
  match evs with
  | [] => true
  | (ev, now) :: evs' =>
      (t <=? now) && ready state ev now
      && admissible g now (select_case g state ev now) evs'
  end.

Definition last_instant (t : Time) (evs : list (Event * Time)) : Time :=
  last (map snd evs) t.

(** The states the loop can be in at an instant: [main] makes the state
    at some instant, and each turn takes a ready case at a later one. *)
Inductive reachable (g : Durations) : Time -> PomodoroState -> Prop :=
| reach_init : forall start,
    reachable g start (NewPomodoro g Work true start)
| reach_turn : forall t state ev now,
    reachable g t state ->
    t <= now ->
    ready state ev now = true ->
    reachable g now (select_case g state ev now).

(** The cases of the [select] that time alone brings about. *)
Definition time_driven (ev : Event) : bool :=
  match ev with
  | TickerC | TimerC => true
  | Received _ => false
  end.

(** The ticks in a list of events. *)
Fixpoint ticks (evs : list (Event * Time)) : Z :=
  match evs with
  | [] => 0
  | (TickerC, _) :: evs' => 1 + ticks evs'
  | _ :: evs' => ticks evs'
  end.

(** The sum of the increments received in a list of events. *)
Fixpoint increments (evs : list (Event * Time)) : Duration :=
  match evs with
  | [] => 0
  | (Received (incChannel inc), _) :: evs' => inc + increments evs'
  | _ :: evs' => increments evs'
  end.

End Select.

(** ** The version with the mutex *)

Module Locked.

Definition durations : Durations :=
  {| WorkDuration := 25 * Minute; RestDuration := 5 * Minute |}.

Definition NewPomodoro (status : PomodoroStatus) (paused : bool) (now : Time)
  : PomodoroState :=
  let duration := GetDuration durations status in
  {| End_ := Time_Add now duration;
     Paused := paused;
     Status := status;
     Ticker := if paused then Some (now + Second) else None;
     Timer := if paused then Timer_Stop else Timer_Reset now duration |}.

Definition Pause (state : PomodoroState) (now : Time) : PomodoroState :=
  {| End_ := End_ state;
     Paused := negb (Paused state);
     Status := Status state;
     Ticker := if Paused state then None else Some (now + 1 * Second);
     Timer := if Paused state
              then Timer_Reset now (Time_Sub (End_ state) now)
              else Timer_Stop |}.

(** The two cases of the [select] in [Update]. *)
Inductive Event :=
| TimerC
| TickerC.

Definition Update_case (state : PomodoroState) (ev : Event) (now : Time)
  : PomodoroState :=
  match ev with
  | TimerC => Toggle durations state now
  | TickerC =>
      {| End_ := Time_Add (End_ state) (1 * Second);
         Paused := Paused state;
         Status := Status state;
         Ticker := option_map (fun t => t + Second) (Ticker state);
         Timer := Timer state |}
  end.

Record Handled := {
  calls : list ConnCall;
  printed : list string;
  after : PomodoroState
}.

Definition HandleRequest {U : Unicode} (conn : Conn) (state : PomodoroState)
  (now : Time) : Handled :=
  let '(buffer, err) := conn_Read conn 128 in
  match err with
  | Some e =>
      {| calls := [CallRead 128];
         printed := ["Error reading: " ++ e]%string;
         after := state |}
  | None =>
      let message := TrimSpace (ToLower buffer) in
      {| calls := [CallRead 128];
         printed := [];
         after := if String.eqb message "pause" then Pause state now
                  else if String.eqb message "toggle"
                       then Toggle durations state now
                  else state |}
  end.

Definition main (removeErr listenErr : option string) : list Action :=
  ActNewPomodoro Work false :: ActGoUpdate :: ActRemoveAll SocketPath ::
  match removeErr with
  | Some e => [ActPrintln ("Error removing socket file: " ++ e); ActReturn]
  | None =>
      ActListenUnix SocketPath ::
      match listenErr with
      | Some e => [ActPrintln ("Error listening: " ++ e); ActReturn]
      | None => [ActDeferClose; ActGoAccept; ActLoop]
      end
  end.

(** [Update]: its loop over the events the two channels bring, each
    with its instant. *)
Definition Update (state : PomodoroState) (evs : list (Event * Time))
  : PomodoroState :=
  fold_left (fun state '(ev, now) => Update_case state ev now) evs state.

Fixpoint expiries (evs : list (Event * Time)) : nat :=
  match evs with
  | [] => O
  | (TimerC, _) :: evs' => S (expiries evs')
  | _ :: evs' => expiries evs'
  end.

Fixpoint ticks (evs : list (Event * Time)) : Z :=
  match evs with
  | [] => 0
  | (TickerC, _) :: evs' => 1 + ticks evs'
  | _ :: evs' => ticks evs'
  end.

(** What takes the mutex and changes the state: a case of [Update], or
    the handler of a connection. *)
Inductive Op :=
| FromUpdate (ev : Event)
| FromRequest (conn : Conn).

Definition step {U : Unicode} (state : PomodoroState) (op : Op) (now : Time)
  : PomodoroState :=
  match op with
  | FromUpdate ev => Update_case state ev now
  | FromRequest conn => after (HandleRequest conn state now)
  end.

(** The holders of the mutex one after the other, in any order. *)
Definition run {U : Unicode} (state : PomodoroState) (ops : list (Op * Time))
  : PomodoroState :=
  fold_left (fun state '(op, now) => step state op now) ops state.

End Locked.

(** * Properties *)

(** ** Arithmetic of [time] *)

Lemma int64_small (z : Z) : - 2 ^ 63 <= z < 2 ^ 63 -> int64 z = z.
Proof.
  intros Hz. unfold int64.
  rewrite Z.mod_small by lia. lia.
Qed.

Lemma lessThanHalf_spec (x y : Z) :
  0 <= x < 2 ^ 63 -> 0 <= y < 2 ^ 64 -> lessThanHalf x y = (2 * x <? y).
Proof.
  intros Hx Hy. unfold lessThanHalf, uint64.
  rewrite (Z.mod_small x) by lia.
  rewrite (Z.mod_small y) by lia.
  rewrite (Z.mod_small (x + x)) by lia.
  f_equal. lia.
Qed.

Lemma Second_value : Second = 1000000000.
Proof. reflexivity. Qed.

Lemma Minute_value : Minute = 60 * Second.
Proof. reflexivity. Qed.

Lemma Time_Round_Second_cases (t : Time) :
  let r := t mod Second in
  0 <= r < Second /\
  ((2 * r < Second /\ Time_Round t Second = t - r) \/
   (Second <= 2 * r /\ Time_Round t Second = t + (Second - r))).
Proof.
  intros r.
  assert (Hr : 0 <= r < Second) by (apply Z.mod_pos_bound; reflexivity).
  split; [exact Hr|].
  unfold Time_Round, Time_Add. fold r.
  replace (Second <=? 0) with false by reflexivity.
  rewrite lessThanHalf_spec.
  - destruct (Z.ltb_spec (2 * r) Second); [left | right]; split; lia.
  - rewrite Second_value in Hr. lia.
  - rewrite Second_value. lia.
Qed.

Lemma Time_Round_multiple (t : Time) : (Time_Round t Second) mod Second = 0.
Proof.
  destruct (Time_Round_Second_cases t) as [Hr [[_ ->] | [_ ->]]].
  - rewrite (Z.div_mod t Second) at 1 by (rewrite Second_value; lia).
    replace (Second * (t / Second) + t mod Second - t mod Second)
      with (0 + (t / Second) * Second) by lia.
    rewrite Z.mod_add by (rewrite Second_value; lia). reflexivity.
  - rewrite (Z.div_mod t Second) at 1 by (rewrite Second_value; lia).
    replace (Second * (t / Second) + t mod Second + (Second - t mod Second))
      with (0 + (t / Second + 1) * Second) by lia.
    rewrite Z.mod_add by (rewrite Second_value; lia). reflexivity.
Qed.

Lemma Time_Round_near (t : Time) :
  2 * Z.abs (Time_Round t Second - t) <= Second.
Proof.
  destruct (Time_Round_Second_cases t) as [Hr [[Hlt ->] | [Hge ->]]]; lia.
Qed.

Lemma Time_Round_fixed (t : Time) :
  t mod Second = 0 -> Time_Round t Second = t.
Proof.
  intros H0.
  destruct (Time_Round_Second_cases t) as [Hr [[Hlt ->] | [Hge ->]]].
  - lia.
  - rewrite H0, Second_value in Hge. lia.
Qed.

Lemma Time_Round_shift (t k : Z) :
  Time_Round (t + k * Second) Second = Time_Round t Second + k * Second.
Proof.
  assert (Hm : (t + k * Second) mod Second = t mod Second)
    by (apply Z.mod_add; rewrite Second_value; lia).
  destruct (Time_Round_Second_cases (t + k * Second)) as [_ H1].
  destruct (Time_Round_Second_cases t) as [_ H2].
  rewrite Hm in H1.
  destruct H1 as [[? ->] | [? ->]], H2 as [[? ->] | [? ->]]; lia.
Qed.

Lemma Time_Sub_range (t u : Time) :
  minDuration <= Time_Sub t u <= maxDuration.
Proof.
  unfold Time_Sub.
  destruct (Z.ltb_spec (t - u) minDuration).
  - unfold minDuration, maxDuration. lia.
  - destruct (Z.ltb_spec maxDuration (t - u)).
    + unfold minDuration, maxDuration. lia.
    + lia.
Qed.

Lemma Time_Sub_exact (t u : Time) :
  minDuration <= t - u <= maxDuration -> Time_Sub t u = t - u.
Proof.
  intros H. unfold Time_Sub.
  destruct (Z.ltb_spec (t - u) minDuration); [lia|].
  destruct (Z.ltb_spec maxDuration (t - u)); lia.
Qed.

Lemma int64_below (z : Z) :
  - 2 ^ 64 <= z < - 2 ^ 63 -> int64 z = z + 2 ^ 64.
Proof.
  intros Hz. unfold int64.
  replace (z + 2 ^ 63) with ((z + 2 ^ 64 + 2 ^ 63) + (- 1) * 2 ^ 64) by lia.
  rewrite Z.mod_add by lia.
  rewrite Z.mod_small by lia. lia.
Qed.

(** A remaining time later than half a second ago rounds to zero or
    more. *)
Lemma Duration_Round_Second_nonneg (d : Duration) :
  minDuration <= d <= maxDuration ->
  - 500 * Millisecond < d ->
  0 <= Duration_Round d Second.
Proof.
  unfold minDuration, maxDuration, Millisecond. intros Hd Hlate.
  unfold Duration_Round.
  replace (Second <=? 0) with false by reflexivity.
  destruct (Z.ltb_spec d 0) as [Hneg | Hpos].
  - assert (Hrem : Z.rem d Second = d).
    { apply Z.rem_small_iff; rewrite Second_value; lia. }
    rewrite Hrem.
    rewrite lessThanHalf_spec by (rewrite ?Second_value; lia).
    destruct (Z.ltb_spec (2 * - d) Second) as [_ | Hge].
    + replace (d + - d) with 0 by lia. reflexivity.
    + rewrite Second_value in Hge. lia.
  - rewrite Second_value.
    pose proof (Z.rem_bound_pos d 1000000000 Hpos eq_refl) as Hr.
    pose proof (Z.quot_rem' d 1000000000) as Hq.
    pose proof (Z.quot_pos d 1000000000 Hpos eq_refl) as Hq0.
    rewrite lessThanHalf_spec by lia.
    destruct (Z.ltb_spec (2 * Z.rem d 1000000000) 1000000000).
    + rewrite int64_small; lia.
    + destruct (Z.ltb_spec d (int64 (d + 1000000000 - Z.rem d 1000000000)));
        unfold maxDuration; lia.
Qed.

(** A remaining time of half a second ago or earlier rounds to a
    second ago or earlier. *)
Lemma Duration_Round_Second_neg (d : Duration) :
  minDuration <= d <= maxDuration ->
  d <= - 500 * Millisecond ->
  Duration_Round d Second <= - Second.
Proof.
  unfold minDuration, maxDuration, Millisecond. intros Hd Hearly.
  unfold Duration_Round.
  replace (Second <=? 0) with false by reflexivity.
  destruct (Z.ltb_spec d 0) as [Hneg | Hpos]; [|lia].
  assert (Hr : - Second < Z.rem d Second <= 0)
    by (apply Z.rem_bound_pos_neg; [reflexivity | lia]).
  pose proof (Z.quot_rem' d Second) as Hq.
  rewrite Second_value in Hr.
  rewrite lessThanHalf_spec by (rewrite ?Second_value; lia).
  destruct (Z.ltb_spec (2 * - Z.rem d Second) Second) as [Hlt | Hge].
  - rewrite Second_value in Hlt.
    assert (Hq1 : d ÷ Second <= - 1) by (rewrite Second_value in *; nia).
    rewrite int64_small by (rewrite Second_value in *; nia).
    rewrite Second_value in *; nia.
  - destruct (Z_lt_le_dec (d - Second + - Z.rem d Second) (- 2 ^ 63)) as [Hw | Hw].
    + rewrite int64_below by (rewrite Second_value in *; lia).
      destruct (Z.ltb_spec (d - Second + - Z.rem d Second + 2 ^ 64) d);
        [rewrite Second_value in *; lia |].
      unfold minDuration. rewrite Second_value. lia.
    + rewrite int64_small by (rewrite Second_value in *; lia).
      destruct (Z.ltb_spec (d - Second + - Z.rem d Second) d).
      * rewrite Second_value in *. lia.
      * unfold minDuration. rewrite Second_value. lia.
Qed.

(** The two numbers [String] prints are zero or more when the rounded
    remaining time is, and zero or less, one of them less, when it is
    a second or more in the past. *)
Lemma fields_nonneg (e : Duration) :
  0 <= e <= maxDuration ->
  0 <= int_Minutes e /\ 0 <= int64 (int_Seconds e - 60 * int_Minutes e) < 60.
Proof.
  unfold maxDuration, int_Minutes, int_Seconds. intros He.
  rewrite Minute_value.
  replace (60 * Second) with (Second * 60) by lia.
  rewrite <- Z.quot_quot by (rewrite ?Second_value; lia).
  set (q := e ÷ Second).
  assert (Hq : 0 <= q) by (apply Z.quot_pos; [lia | reflexivity]).
  assert (Hqu : q <= e).
  { pose proof (Z.mul_quot_le e Second) as H.
    fold q in H. rewrite Second_value in H. lia. }
  pose proof (Z.quot_rem' q 60) as H60.
  pose proof (Z.rem_bound_pos q 60 Hq eq_refl) as Hr.
  assert (Hm : 0 <= q ÷ 60) by (apply Z.quot_pos; lia).
  split; [exact Hm|].
  rewrite int64_small; lia.
Qed.

Lemma fields_nonpos (e : Duration) :
  minDuration <= e <= - Second ->
  int_Minutes e <= 0 /\
  - 60 < int64 (int_Seconds e - 60 * int_Minutes e) <= 0 /\
  int_Minutes e + int64 (int_Seconds e - 60 * int_Minutes e) < 0.
Proof.
  unfold minDuration, int_Minutes, int_Seconds. intros He.
  rewrite Minute_value.
  replace (60 * Second) with (Second * 60) by lia.
  rewrite <- Z.quot_quot by (rewrite ?Second_value; lia).
  set (q := e ÷ Second).
  assert (Hq : q <= - 1).
  { pose proof (Z.quot_rem' e Second) as H.
    assert (Hr : - Second < Z.rem e Second <= 0)
      by (apply Z.rem_bound_pos_neg; [reflexivity | rewrite Second_value in *; lia]).
    fold q in H. rewrite Second_value in *. nia. }
  assert (Hql : e <= q).
  { pose proof (Z.mul_quot_ge e Second) as H.
    fold q in H. rewrite Second_value in *. lia. }
  pose proof (Z.quot_rem' q 60) as H60.
  pose proof (Z.rem_bound_pos_neg q 60 eq_refl ltac:(lia)) as Hr.
  assert (Hm : q ÷ 60 <= 0).
  { pose proof (Z.mul_quot_ge q 60). lia. }
  rewrite int64_small by lia.
  repeat split; lia.
Qed.

Lemma int64_range (z : Z) : minDuration <= int64 z <= maxDuration.
Proof.
  unfold int64, minDuration, maxDuration.
  pose proof (Z.mod_pos_bound (z + 2 ^ 63) (2 ^ 64) eq_refl). lia.
Qed.

Lemma Duration_Round_range (d m : Duration) :
  minDuration <= d <= maxDuration ->
  minDuration <= Duration_Round d m <= maxDuration.
Proof.
  intros Hd. unfold Duration_Round.
  repeat match goal with
         | |- context [if ?b then _ else _] => destruct b
         end;
    try apply int64_range; try exact Hd;
    unfold minDuration, maxDuration; lia.
Qed.

(** Away from the ends of [int64], rounding to the second gives a
    whole number of seconds at most half a second away. *)
Lemma Duration_Round_Second_near (d : Duration) :
  minDuration + Second <= d <= maxDuration - Second ->
  (Duration_Round d Second) mod Second = 0 /\
  2 * Z.abs (Duration_Round d Second - d) <= Second.
Proof.
  unfold minDuration, maxDuration. rewrite Second_value. intros Hd.
  unfold Duration_Round.
  replace (1000000000 <=? 0) with false by reflexivity.
  pose proof (Z.quot_rem' d 1000000000) as Hq.
  set (q := d ÷ 1000000000) in *. set (r := Z.rem d 1000000000) in *.
  assert (Hmul : forall k, (1000000000 * k) mod 1000000000 = 0).
  { intros k. rewrite Z.mul_comm. apply Z.mod_mul. lia. }
  destruct (Z.ltb_spec d 0) as [Hneg | Hpos].
  - pose proof (Z.rem_bound_pos_neg d 1000000000 eq_refl ltac:(lia)) as Hr.
    fold r in Hr.
    rewrite lessThanHalf_spec by lia.
    destruct (Z.ltb_spec (2 * - r) 1000000000).
    + rewrite int64_small by lia.
      replace (d + - r) with (1000000000 * q) by lia.
      split; [apply Hmul | lia].
    + rewrite int64_small by lia.
      destruct (Z.ltb_spec (d - 1000000000 + - r) d); [|lia].
      replace (d - 1000000000 + - r) with (1000000000 * (q - 1)) by lia.
      split; [apply Hmul | lia].
  - pose proof (Z.rem_bound_pos d 1000000000 Hpos eq_refl) as Hr.
    fold r in Hr.
    rewrite lessThanHalf_spec by lia.
    destruct (Z.ltb_spec (2 * r) 1000000000).
    + rewrite int64_small by lia.
      replace (d - r) with (1000000000 * q) by lia.
      split; [apply Hmul | lia].
    + rewrite int64_small by lia.
      destruct (Z.ltb_spec d (d + 1000000000 - r)); [|lia].
      replace (d + 1000000000 - r) with (1000000000 * (q + 1)) by lia.
      split; [apply Hmul | lia].
Qed.

(** The quotients stand for the floats: on every whole second within
    ten hours of zero, and on the two extreme durations. *)
Lemma float64_agrees :
  forallb float64_agrees_at
    (minDuration :: maxDuration :: whole_seconds (Z.to_nat 72001) (- 36000))
  = true.
Proof. vm_compute. reflexivity. Qed.

Lemma int64_above (z : Z) :
  2 ^ 63 <= z < 2 ^ 64 -> int64 z = z - 2 ^ 64.
Proof.
  intros Hz. unfold int64.
  replace (z + 2 ^ 63) with ((z - 2 ^ 63) + 1 * 2 ^ 64) by lia.
  rewrite Z.mod_add by lia.
  rewrite Z.mod_small by lia. lia.
Qed.

(** What [Duration.Round] hands back for a whole second. *)
Lemma Duration_Round_Second_shape (d : Duration) :
  minDuration <= d <= maxDuration ->
  (Duration_Round d Second) mod Second = 0
  \/ Duration_Round d Second = minDuration
  \/ Duration_Round d Second = maxDuration.
Proof.
  unfold minDuration, maxDuration. rewrite Second_value. intros Hd.
  unfold Duration_Round.
  replace (1000000000 <=? 0) with false by reflexivity.
  pose proof (Z.quot_rem' d 1000000000) as Hq.
  set (q := d ÷ 1000000000) in *. set (r := Z.rem d 1000000000) in *.
  assert (Hmul : forall k, (1000000000 * k) mod 1000000000 = 0).
  { intros k. rewrite Z.mul_comm. apply Z.mod_mul. lia. }
  destruct (Z.ltb_spec d 0) as [Hneg | Hpos].
  - pose proof (Z.rem_bound_pos_neg d 1000000000 eq_refl ltac:(lia)) as Hr.
    fold r in Hr.
    rewrite lessThanHalf_spec by lia.
    destruct (Z.ltb_spec (2 * - r) 1000000000).
    + left. rewrite int64_small by lia.
      replace (d + - r) with (1000000000 * q) by lia. apply Hmul.
    + destruct (Z_lt_le_dec (d - 1000000000 + - r) (- 2 ^ 63)) as [Hw | Hw].
      * right. left. rewrite int64_below by lia.
        destruct (Z.ltb_spec (d - 1000000000 + - r + 2 ^ 64) d); [lia | reflexivity].
      * left. rewrite int64_small by lia.
        destruct (Z.ltb_spec (d - 1000000000 + - r) d); [|lia].
        replace (d - 1000000000 + - r) with (1000000000 * (q - 1)) by lia.
        apply Hmul.
  - pose proof (Z.rem_bound_pos d 1000000000 Hpos eq_refl) as Hr.
    fold r in Hr.
    rewrite lessThanHalf_spec by lia.
    destruct (Z.ltb_spec (2 * r) 1000000000).
    + left. rewrite int64_small by lia.
      replace (d - r) with (1000000000 * q) by lia. apply Hmul.
    + destruct (Z_lt_le_dec (d + 1000000000 - r) (2 ^ 63)) as [Hw | Hw].
      * left. rewrite int64_small by lia.
        destruct (Z.ltb_spec d (d + 1000000000 - r)); [|lia].
        replace (d + 1000000000 - r) with (1000000000 * (q + 1)) by lia.
        apply Hmul.
      * right. right. rewrite int64_above by lia.
        destruct (Z.ltb_spec d (d + 1000000000 - r - 2 ^ 64)); [lia | reflexivity].
Qed.

(** ** The verb [%02d] *)

Lemma fmt_02d_table :
  forallb (fun n => String.eqb (fmt_02d (Z.of_nat n)) (two_digits (Z.of_nat n)))
    (seq 0 100) = true.
Proof. vm_compute. reflexivity. Qed.

Lemma fmt_02d_two_digits (v : Z) :
  0 <= v < 100 -> fmt_02d v = two_digits v.
Proof.
  intros Hv.
  pose proof fmt_02d_table as Htab.
  rewrite forallb_forall in Htab.
  specialize (Htab (Z.to_nat v)).
  rewrite Z2Nat.id in Htab by lia.
  apply String.eqb_eq, Htab, in_seq. lia.
Qed.

Lemma two_digits_length (v : Z) : String.length (two_digits v) = 2%nat.
Proof. reflexivity. Qed.

Lemma fmt_digits_length (fuel : nat) :
  forall u acc,
    (String.length acc <= String.length (fmt_digits fuel u acc))%nat /\
    (fuel <> O -> (S (String.length acc) <= String.length (fmt_digits fuel u acc))%nat).
Proof.
  induction fuel as [| fuel IH]; intros u acc.
  - split; [apply le_n | intros H; contradiction].
  - cbn [fmt_digits].
    destruct (10 <=? u).
    + destruct (IH (u / 10) (String (byte_of (48 + u - u / 10 * 10)) acc)) as [Hle _].
      cbn [String.length] in Hle. split; [lia | intros _; lia].
    + cbn [String.length]. split; [lia | intros _; lia].
Qed.

Lemma fmt_02d_wide (v : Z) :
  100 <= v < 2 ^ 63 -> (3 <= String.length (fmt_02d v))%nat.
Proof.
  intros Hv. unfold fmt_02d.
  destruct (Z.ltb_spec v 0) as [Hneg | _]; [lia|].
  unfold uint64. rewrite Z.mod_small by lia.
  change (fmt_digits 20 v EmptyString)
    with (if 10 <=? v
          then fmt_digits 19 (v / 10) (String (byte_of (48 + v - v / 10 * 10)) EmptyString)
          else String (byte_of (48 + v)) EmptyString).
  destruct (Z.leb_spec 10 v) as [_ | Hlt]; [|lia].
  destruct (fmt_digits_length 19 (v / 10)
              (String (byte_of (48 + v - v / 10 * 10)) EmptyString)) as [_ Hone].
  specialize (Hone ltac:(discriminate)). cbn [String.length] in Hone.
  change (fmt_digits 19 (v / 10) (String (byte_of (48 + v - v / 10 * 10)) EmptyString))
    with (if 10 <=? v / 10
          then fmt_digits 18 (v / 10 / 10)
                 (String (byte_of (48 + v / 10 - v / 10 / 10 * 10))
                    (String (byte_of (48 + v - v / 10 * 10)) EmptyString))
          else String (byte_of (48 + v / 10))
                 (String (byte_of (48 + v - v / 10 * 10)) EmptyString)) in *.
  assert (H10 : 10 <= v / 10) by (apply Z.div_le_lower_bound; lia).
  destruct (Z.leb_spec 10 (v / 10)) as [_ | Hlt]; [|lia].
  match goal with
  | |- context [fmt_digits 18 ?u ?acc] =>
      destruct (fmt_digits_length 18 u acc) as [_ Hlen];
      specialize (Hlen ltac:(discriminate));
      cbn [String.length] in Hlen;
      set (ds := fmt_digits 18 u acc) in *
  end.
  replace (2 - String.length ds)%nat with O by lia.
  exact Hlen.
Qed.

Lemma fmt_02d_negative (v : Z) :
  v < 0 -> exists ds, fmt_02d v = String "-" ds.
Proof.
  intros Hv. unfold fmt_02d.
  destruct (Z.ltb_spec v 0) as [_ | Hpos]; [|lia].
  eexists. reflexivity.
Qed.

(** From half a second under a hundred minutes on, the rounded
    duration is a hundred minutes or more. *)
Lemma Duration_Round_Second_hundred (d : Duration) :
  100 * Minute - 500 * Millisecond <= d <= maxDuration ->
  100 * Minute <= Duration_Round d Second.
Proof.
  unfold maxDuration, Millisecond. rewrite Minute_value, Second_value. intros Hd.
  unfold Duration_Round.
  replace (1000000000 <=? 0) with false by reflexivity.
  destruct (Z.ltb_spec d 0) as [Hneg | Hpos]; [lia|].
  pose proof (Z.rem_bound_pos d 1000000000 Hpos eq_refl) as Hr.
  pose proof (Z.quot_rem' d 1000000000) as Hq.
  rewrite lessThanHalf_spec by lia.
  destruct (Z.ltb_spec (2 * Z.rem d 1000000000) 1000000000).
  - rewrite int64_small by lia. lia.
  - destruct (Z_lt_le_dec (d + 1000000000 - Z.rem d 1000000000) (2 ^ 63)) as [Hw | Hw].
    + rewrite int64_small by lia.
      destruct (Z.ltb_spec d (d + 1000000000 - Z.rem d 1000000000));
        [lia | unfold maxDuration; lia].
    + rewrite int64_above by lia.
      destruct (Z.ltb_spec d (d + 1000000000 - Z.rem d 1000000000 - 2 ^ 64));
        [lia | unfold maxDuration; lia].
Qed.

(** ** [Toggle] *)

Lemma Toggle_Status (g : Durations) (state : PomodoroState) (now : Time) :
  Status state = Work \/ Status state = Rest ->
  Status (Toggle g state now) = 1 - Status state.
Proof.
  unfold Work, Rest. intros [H | H]; simpl; rewrite H; reflexivity.
Qed.

Lemma Toggles_Status (g : Durations) (nows : list Time) :
  forall state,
    Status state = Work \/ Status state = Rest ->
    Status (Toggles g state nows)
    = if Nat.even (List.length nows) then Status state else 1 - Status state.
Proof.
  unfold Toggles.
  induction nows as [| now nows IH] using rev_ind; intros state Hv.
  - reflexivity.
  - rewrite fold_left_app. simpl fold_left.
    rewrite length_app, Nat.add_comm. simpl List.length.
    rewrite Nat.even_succ, <- Nat.negb_even.
    assert (Hv' : Status (fold_left (Toggle g) nows state) = Work
                  \/ Status (fold_left (Toggle g) nows state) = Rest).
    { rewrite IH by exact Hv. unfold Work, Rest in *.
      destruct (Nat.even (List.length nows)); cbv iota; lia. }
    rewrite Toggle_Status by exact Hv'.
    rewrite IH by exact Hv.
    destruct (Nat.even (List.length nows)); cbv iota beta delta [negb]; lia.
Qed.

(** C2. [Toggle] sets the phase to the other one, [(Status + 1) mod 2],
    and the end of the period to the instant of the call plus the
    duration of the new phase, whatever the state; so the phase after
    any number of calls is the first one after an even number and the
    other one after an odd number, and two calls give the first phase
    back. *)
Theorem Toggle_alternates (g : Durations) (state : PomodoroState) :
  Status state = Work \/ Status state = Rest ->
  forall now : Time,
    let state' := Toggle g state now in
    Status state' = Z.rem (Status state + 1) 2 /\
    Status state' = (Status state + 1) mod 2 /\
    (Status state = Work -> Status state' = Rest) /\
    (Status state = Rest -> Status state' = Work) /\
    End_ state' = now + GetDuration g (Status state') /\
    GetDuration g (Status state')
    = (if Status state =? Work then RestDuration g else WorkDuration g) /\
    Paused state' = Paused state /\
    (forall nows : list Time,
        Status (Toggles g state nows)
        = if Nat.even (List.length nows) then Status state else Status state') /\
    (forall now' : Time, Status (Toggle g state' now') = Status state).
Proof.
  intros Hv now state'.
  assert (H1 : Status state' = 1 - Status state)
    by (apply Toggle_Status; exact Hv).
  assert (Hv' : Status state' = Work \/ Status state' = Rest)
    by (rewrite H1; unfold Work, Rest in *; lia).
  repeat split.
  - unfold state', Toggle. simpl. unfold Work, Rest in Hv.
    destruct Hv as [-> | ->]; reflexivity.
  - rewrite H1. unfold Work, Rest in Hv. destruct Hv as [-> | ->]; reflexivity.
  - intros H. rewrite H1, H. reflexivity.
  - intros H. rewrite H1, H. reflexivity.
  - rewrite H1. unfold Work, Rest in Hv.
    destruct Hv as [H | H]; rewrite H; reflexivity.
  - intros nows. rewrite H1. apply Toggles_Status. exact Hv.
  - intros now'. rewrite Toggle_Status by exact Hv'. rewrite H1. lia.
Qed.

Lemma Toggle_alternates_witness :
  Status (Toggles Locked.durations (Locked.NewPomodoro Work false 0) [1; 2; 3])
  = Rest.
Proof.
  assert (Hv : Status (Locked.NewPomodoro Work false 0) = Work
               \/ Status (Locked.NewPomodoro Work false 0) = Rest)
    by (left; reflexivity).
  destruct (Toggle_alternates Locked.durations _ Hv 1)
    as (_ & _ & _ & _ & _ & _ & _ & Hn & _).
  rewrite Hn. reflexivity.
Defined.

(** ** [Pause] and the tick *)



(** ** [Inc] *)

(** C4. [Inc] moves the end of the period by the increment, to the
    nearest whole second, whatever the sign of the increment, and
    leaves phase and paused flag alone; an increment of whole seconds
    moves the rounded end of the period by just that much; five seconds
    more and then five seconds less give the end of the period back, to
    the nearest whole second. *)
Theorem Inc_shift (state : PomodoroState) (delta : Duration) (now now' : Time) :
  End_ (Select.Inc state delta now) = Time_Round (End_ state + delta) Second /\
  (End_ (Select.Inc state delta now)) mod Second = 0 /\
  2 * Z.abs (End_ (Select.Inc state delta now) - (End_ state + delta)) <= Second /\
  Status (Select.Inc state delta now) = Status state /\
  Paused (Select.Inc state delta now) = Paused state /\
  (forall k : Z,
      End_ (Select.Inc state (k * Second) now)
      = Time_Round (End_ state) Second + k * Second) /\
  End_ (Select.Inc (Select.Inc state (5 * Second) now) (- 5 * Second) now')
  = Time_Round (End_ state) Second /\
  2 * Z.abs (End_ (Select.Inc (Select.Inc state (5 * Second) now)
                     (- 5 * Second) now') - End_ state) <= Second.
Proof.
  assert (Hback : End_ (Select.Inc (Select.Inc state (5 * Second) now)
                          (- 5 * Second) now')
                  = Time_Round (End_ state) Second).
  { cbn [Select.Inc End_]. unfold Time_Add.
    rewrite (Time_Round_shift (End_ state) 5).
    rewrite (Time_Round_shift (Time_Round (End_ state) Second + 5 * Second) (- 5)).
    rewrite Time_Round_fixed.
    - lia.
    - rewrite Z.mod_add by (rewrite Second_value; lia).
      apply Time_Round_multiple. }
  split; [reflexivity|].
  split; [apply Time_Round_multiple|].
  split; [apply Time_Round_near|].
  split; [reflexivity|].
  split; [reflexivity|].
  split; [intros k; apply Time_Round_shift|].
  split; [exact Hback|].
  rewrite Hback. apply Time_Round_near.
Qed.

(** ** [String] *)

Lemma elapsedTime_range (state : PomodoroState) (now : Time) :
  minDuration <= elapsedTime state now <= maxDuration.
Proof.
  apply Duration_Round_range, Time_Sub_range.
Qed.

(** With [-w 100] the first line has three digits of minutes, and a
    paused state whose period ended five seconds ago shows a negative
    number of seconds: neither is of the form [MM:SS]. *)
Lemma field_not_two_digits :
  PomodoroState_String
    (Select.NewPomodoro (Select.main_durations 100 5) Work true 0) 0
  = (PauseEmoji ++ " 100:00")%string /\
  PomodoroState_String
    {| End_ := 0; Paused := true; Status := Work;
       Ticker := Some Second; Timer := None |} (5 * Second)
  = (PauseEmoji ++ " 00:-5")%string.
Proof.
  vm_compute. split; reflexivity.
Qed.

(** C5, as the code has it. [String] gives the icon, a space, the
    minutes, a colon and the seconds, both numbers through [%02d]: the
    icon is the pause glyph whenever the state is paused, the tomato in
    a running work phase and the beach in a running rest phase, three
    different glyphs. While the remaining time rounds to something from
    zero to under a hundred minutes, the numbers are its minutes and
    its seconds, under sixty, each as two decimal digits. Outside of
    that the line is not of this form: from half a second in the past
    on, both numbers are zero or less and one of them is printed with a
    minus sign, and from half a second under a hundred minutes on, the
    minutes take three bytes or more. *)
Theorem String_format (state : PomodoroState) (now : Time) :
  (Paused state = true -> suffix state = PauseEmoji) /\
  (Paused state = false -> Status state = Work -> suffix state = TomatoEmoji) /\
  (Paused state = false -> Status state = Rest -> suffix state = RestEmoji) /\
  (PauseEmoji <> TomatoEmoji /\ PauseEmoji <> RestEmoji
   /\ TomatoEmoji <> RestEmoji) /\
  PomodoroState_String state now
  = (suffix state ++ " " ++ fmt_02d (minutes state now) ++ ":"
       ++ fmt_02d (seconds state now))%string /\
  (- 500 * Millisecond < End_ state - now < 100 * Minute - 500 * Millisecond ->
   0 <= minutes state now < 100 /\
   0 <= seconds state now < 60 /\
   2 * Z.abs ((60 * minutes state now + seconds state now) * Second
              - (End_ state - now)) <= Second /\
   PomodoroState_String state now
   = (suffix state ++ " " ++ two_digits (minutes state now) ++ ":"
        ++ two_digits (seconds state now))%string) /\
  (End_ state - now <= - 500 * Millisecond ->
   minutes state now <= 0 /\ seconds state now <= 0 /\
   ((exists ds, fmt_02d (minutes state now) = String "-" ds)
    \/ (exists ds, fmt_02d (seconds state now) = String "-" ds))) /\
  (100 * Minute - 500 * Millisecond <= End_ state - now ->
   100 <= minutes state now /\
   (3 <= String.length (fmt_02d (minutes state now)))%nat).
Proof.
  split; [intros Hp; unfold suffix; rewrite Hp; reflexivity|].
  split; [intros Hp Hs; unfold suffix; rewrite Hp, Hs; reflexivity|].
  split; [intros Hp Hs; unfold suffix; rewrite Hp, Hs; reflexivity|].
  split; [repeat split; discriminate|].
  split; [reflexivity|].
  pose proof (Time_Sub_range (End_ state) now) as Hsubr.
  pose proof (elapsedTime_range state now) as Hrange0.
  split; [|split].
  2: { intros Hrem.
       assert (Hneg : elapsedTime state now <= - Second).
       { apply Duration_Round_Second_neg; [exact Hsubr|].
         unfold Time_Sub, minDuration, maxDuration, Millisecond in *.
         destruct (Z.ltb_spec (End_ state - now) (- 2 ^ 63)); [lia|].
         destruct (Z.ltb_spec (2 ^ 63 - 1) (End_ state - now)); lia. }
       destruct (fields_nonpos (elapsedTime state now) (conj (proj1 Hrange0) Hneg))
         as (Hm & Hs & Hone).
       fold (minutes state now) in Hm, Hs, Hone.
       fold (seconds state now) in Hs, Hone.
       split; [exact Hm|]. split; [apply Hs|].
       destruct (Z_lt_le_dec (minutes state now) 0) as [Hlt | Hge].
       - left. apply fmt_02d_negative. exact Hlt.
       - right. apply fmt_02d_negative. lia. }
  2: { intros Hrem.
       assert (Hbig : 100 * Minute <= elapsedTime state now).
       { apply Duration_Round_Second_hundred. split; [|apply Hsubr].
         unfold Time_Sub, minDuration, maxDuration, Millisecond in *.
         rewrite Minute_value, Second_value in *.
         destruct (Z.ltb_spec (End_ state - now) (- 2 ^ 63)); [lia|].
         destruct (Z.ltb_spec (2 ^ 63 - 1) (End_ state - now)); lia. }
       assert (Hm : 100 <= minutes state now).
       { unfold minutes, int_Minutes.
         apply Z.quot_le_lower_bound; [reflexivity | lia]. }
       split; [exact Hm|].
       apply fmt_02d_wide. split; [exact Hm|].
       unfold minutes, int_Minutes.
       pose proof (Z.mul_quot_le (elapsedTime state now) Minute) as Hq.
       unfold maxDuration in Hrange0.
       rewrite Minute_value, Second_value in *. lia. }
  intros Hrem.
  assert (Hsub : Time_Sub (End_ state) now = End_ state - now).
  { apply Time_Sub_exact. unfold minDuration, maxDuration.
    rewrite Minute_value, Second_value in Hrem. unfold Millisecond in Hrem. lia. }
  assert (Hnear : (elapsedTime state now) mod Second = 0 /\
                  2 * Z.abs (elapsedTime state now - (End_ state - now)) <= Second).
  { unfold elapsedTime. rewrite Hsub. apply Duration_Round_Second_near.
    unfold minDuration, maxDuration.
    rewrite Minute_value, Second_value in *. unfold Millisecond in Hrem. lia. }
  destruct Hnear as [Hmul Hnear].
  assert (Hpos : 0 <= elapsedTime state now).
  { unfold elapsedTime. rewrite Hsub. apply Duration_Round_Second_nonneg.
    - unfold minDuration, maxDuration.
      rewrite Minute_value, Second_value in Hrem. unfold Millisecond in Hrem. lia.
    - apply Hrem. }
  pose proof (elapsedTime_range state now) as Hrange.
  destruct (fields_nonneg (elapsedTime state now) (conj Hpos (proj2 Hrange)))
    as [Hm Hs].
  fold (minutes state now) in Hm, Hs. fold (seconds state now) in Hs.
  assert (Hsum : (60 * minutes state now + seconds state now) * Second
                 = elapsedTime state now).
  { unfold seconds in *. unfold minutes in *.
    unfold int_Minutes, int_Seconds in *.
    set (e := elapsedTime state now) in *.
    assert (Hq : 0 <= e ÷ Second) by (apply Z.quot_pos; [lia | reflexivity]).
    assert (Hqe : e = Second * (e ÷ Second)).
    { rewrite (Z.quot_rem' e Second) at 1.
      rewrite Z.rem_mod_nonneg by (rewrite ?Second_value; lia).
      rewrite Hmul. lia. }
    assert (Hqu : e ÷ Second <= e) by (rewrite Second_value in *; lia).
    assert (Hmu : 60 * (e ÷ Minute) <= e ÷ Second).
    { rewrite Minute_value.
      replace (60 * Second) with (Second * 60) by lia.
      rewrite <- Z.quot_quot by (rewrite ?Second_value; lia).
      pose proof (Z.mul_quot_le (e ÷ Second) 60 Hq). lia. }
    unfold maxDuration in Hrange.
    rewrite int64_small by lia. lia. }
  assert (Hm100 : minutes state now < 100).
  { rewrite Minute_value, Second_value in *. unfold Millisecond in Hrem. lia. }
  split; [lia|]. split; [exact Hs|]. split; [rewrite Hsum; exact Hnear|].
  unfold PomodoroState_String.
  rewrite !fmt_02d_two_digits by lia. reflexivity.
Qed.

Lemma String_format_witness :
  PomodoroState_String (Locked.NewPomodoro Work false 0) (10 * Second)
  = (TomatoEmoji ++ " 24:50")%string.
Proof.
  destruct (String_format (Locked.NewPomodoro Work false 0) (10 * Second))
    as (_ & Hw & _ & _ & _ & Hd & _).
  destruct Hd as (_ & _ & _ & ->); [vm_compute; split; reflexivity|].
  rewrite Hw; reflexivity.
Defined.

(** ** The states of the loop *)

Lemma last_cons_default (l : list Time) :
  forall a d d', last (a :: l) d = last (a :: l) d'.
Proof.
  induction l as [| b l IH]; intros a d d'.
  - reflexivity.
  - change (last (b :: l) d = last (b :: l) d'). apply IH.
Qed.

Lemma reachable_loop (g : Durations) (evs : list (Select.Event * Time)) :
  forall t state,
    Select.reachable g t state ->
    Select.admissible g t state evs = true ->
    Select.reachable g (Select.last_instant t evs)
      (fst (Select.loop g state evs)).
Proof.
  induction evs as [| [ev now] evs IH]; intros t state Hr Hadm.
  - exact Hr.
  - simpl in Hadm.
    apply andb_prop in Hadm. destruct Hadm as [Hadm Hrest].
    apply andb_prop in Hadm. destruct Hadm as [Hle Hready].
    apply Z.leb_le in Hle.
    pose proof (Select.reach_turn g t state ev now Hr Hle Hready) as Hr'.
    specialize (IH now _ Hr' Hrest).
    simpl Select.loop. unfold Select.loop_turn.
    destruct (Select.loop g (Select.select_case g state ev now) evs)
      as [final lines] eqn:Hloop.
    simpl fst in *.
    replace (Select.last_instant t ((ev, now) :: evs))
      with (Select.last_instant now evs); [exact IH|].
    unfold Select.last_instant. simpl map.
    destruct (map snd evs) as [| t0 l]; [reflexivity|].
    change (last (t0 :: l) now = last (t0 :: l) t).
    apply last_cons_default.
Qed.

(** The phase of the loop is always one of the two. *)
Lemma reachable_Status (g : Durations) (t : Time) (state : PomodoroState) :
  Select.reachable g t state -> Status state = Work \/ Status state = Rest.
Proof.
  induction 1 as [start | t state ev now Hr IH Hle Hready].
  - left. reflexivity.
  - assert (Htoggle : forall s, Status s = Work \/ Status s = Rest ->
                                Status (Toggle g s now) = Work
                                \/ Status (Toggle g s now) = Rest).
    { intros s Hs. rewrite Toggle_Status by exact Hs.
      unfold Work, Rest in *. lia. }
    unfold Select.select_case.
    destruct ev as [| | [| | inc]]; simpl Select.receive; cbv zeta.
    + cbn [Paused]. destruct (Paused state); exact IH.
    + cbn [Paused]. destruct (Paused state); cbn [negb].
      * exact IH.
      * apply Htoggle. exact IH.
    + exact IH.
    + apply Htoggle. exact IH.
    + exact IH.
Qed.

(** With [-w 1], thirteen [dec] commands ten milliseconds apart in the
    first second: the state is still paused, the end of the period is
    five seconds before the start, and the line printed shows a
    negative number of seconds. *)
Lemma negative_display :
  let g := Select.main_durations 1 5 in
  let decs :=
    map (fun k => (Select.Received (Select.incChannel (- 5 * Second)),
                   Z.of_nat k * (10 * Millisecond)))
        (seq 1 13) in
  let state := fst (Select.loop g (Select.NewPomodoro g Work true 0) decs) in
  Select.reachable g (130 * Millisecond) state /\
  minutes state (130 * Millisecond) = 0 /\
  seconds state (130 * Millisecond) = - 5 /\
  seconds state (130 * Millisecond) < 0 /\
  PomodoroState_String state (130 * Millisecond)
  = (PauseEmoji ++ " 00:-5")%string.
Proof.
  intros g decs state.
  split.
  - apply (reachable_loop g decs 0 (Select.NewPomodoro g Work true 0)).
    + apply Select.reach_init.
    + vm_compute. reflexivity.
  - vm_compute. repeat split.
Qed.

(** C6, as the code has it. The two numbers [String] prints are zero or
    more exactly when the end of the period is later than half a second
    before the instant of the call; from half a second before on, both
    are zero or less and one of them is negative. Nothing keeps the end
    of the period ahead of the clock: [Inc] with a negative increment
    moves it back without a bound. *)
Theorem display_sign (state : PomodoroState) (now : Time) :
  (- 500 * Millisecond < End_ state - now ->
   0 <= minutes state now /\ 0 <= seconds state now < 60) /\
  (End_ state - now <= - 500 * Millisecond ->
   minutes state now <= 0 /\ - 60 < seconds state now <= 0 /\
   minutes state now + seconds state now < 0).
Proof.
  pose proof (Time_Sub_range (End_ state) now) as Hsub.
  pose proof (elapsedTime_range state now) as Hrange.
  split; intros Hrem.
  - apply fields_nonneg. split; [|apply Hrange].
    apply Duration_Round_Second_nonneg; [exact Hsub|].
    unfold Time_Sub, minDuration, maxDuration, Millisecond in *.
    destruct (Z.ltb_spec (End_ state - now) (- 2 ^ 63)); [lia|].
    destruct (Z.ltb_spec (2 ^ 63 - 1) (End_ state - now)); lia.
  - apply fields_nonpos. split; [apply Hrange|].
    apply Duration_Round_Second_neg; [exact Hsub|].
    unfold Time_Sub, minDuration, maxDuration, Millisecond in *.
    destruct (Z.ltb_spec (End_ state - now) (- 2 ^ 63)); [lia|].
    destruct (Z.ltb_spec (2 ^ 63 - 1) (End_ state - now)); lia.
Qed.

Lemma display_sign_witness :
  0 <= minutes (Locked.NewPomodoro Work false 0) (1500 * Second + 499 * Millisecond)
  /\ 0 <= seconds (Locked.NewPomodoro Work false 0)
            (1500 * Second + 499 * Millisecond) < 60.
Proof.
  apply (display_sign (Locked.NewPomodoro Work false 0)
           (1500 * Second + 499 * Millisecond)).
  vm_compute. reflexivity.
Defined.

(** ** The handler of a connection *)

Section Handler.

Context {U : Unicode}.

Lemma Select_HandleRequest_read (conn : Conn) (buffer : string) :
  conn_Read conn 128 = (buffer, None) ->
  Select.HandleRequest conn
  = {| Select.calls := [CallRead 128];
       Select.printed := [];
       Select.sent := Select.dispatch (TrimSpace (ToLower buffer)) |}.
Proof.
  intros Hread. unfold Select.HandleRequest. rewrite Hread. reflexivity.
Qed.

Lemma Locked_HandleRequest_read (conn : Conn) (buffer : string)
  (state : PomodoroState) (now : Time) :
  conn_Read conn 128 = (buffer, None) ->
  Locked.after (Locked.HandleRequest conn state now)
  = (if String.eqb (TrimSpace (ToLower buffer)) "pause"
     then Locked.Pause state now
     else if String.eqb (TrimSpace (ToLower buffer)) "toggle"
          then Toggle Locked.durations state now
          else state).
Proof.
  intros Hread. unfold Locked.HandleRequest. rewrite Hread. reflexivity.
Qed.

Lemma HandleRequest_failed (conn : Conn) (state : PomodoroState) (now : Time) :
  snd (conn_Read conn 128) <> None ->
  Select.sent (Select.HandleRequest conn) = None /\
  Locked.after (Locked.HandleRequest conn state now) = state.
Proof.
  intros Herr. unfold Select.HandleRequest, Locked.HandleRequest.
  destruct (conn_Read conn 128) as [buffer [e |]].
  - split; reflexivity.
  - exfalso. apply Herr. reflexivity.
Qed.

Lemma HandleRequest_calls (conn : Conn) (state : PomodoroState) (now : Time) :
  Select.calls (Select.HandleRequest conn) = [CallRead 128] /\
  Locked.calls (Locked.HandleRequest conn state now) = [CallRead 128].
Proof.
  unfold Select.HandleRequest, Locked.HandleRequest.
  destruct (conn_Read conn 128) as [buffer [e |]]; split; reflexivity.
Qed.

(** C1, as the code has it. The text read from a connection, in lower
    case and trimmed, decides the one method called. In the version
    with the [select] loop the handler sends on one channel and the loop
    calls [Pause] for [pause], [Toggle] for [toggle], [Inc] with five
    seconds for [inc] and with minus five seconds for [dec]. In the
    version with the mutex the handler calls [Pause] for [pause] and
    [Toggle] for [toggle], and leaves the state alone for [inc] and
    [dec]. *)
Theorem commands_dispatch (g : Durations) (conn : Conn) (buffer : string)
  (state : PomodoroState) (now : Time) :
  conn_Read conn 128 = (buffer, None) ->
  let message := TrimSpace (ToLower buffer) in
  (message = "pause"%string ->
   Select.sent (Select.HandleRequest conn) = Some Select.pauseChannel /\
   Select.served g conn state now = Select.Pause state now /\
   Locked.after (Locked.HandleRequest conn state now) = Locked.Pause state now) /\
  (message = "toggle"%string ->
   Select.sent (Select.HandleRequest conn) = Some Select.toggleChannel /\
   Select.served g conn state now = Toggle g state now /\
   Locked.after (Locked.HandleRequest conn state now)
   = Toggle Locked.durations state now) /\
  (message = "inc"%string ->
   Select.sent (Select.HandleRequest conn)
   = Some (Select.incChannel (5 * Second)) /\
   Select.served g conn state now = Select.Inc state (5 * Second) now /\
   Locked.after (Locked.HandleRequest conn state now) = state) /\
  (message = "dec"%string ->
   Select.sent (Select.HandleRequest conn)
   = Some (Select.incChannel (- 5 * Second)) /\
   Select.served g conn state now = Select.Inc state (- 5 * Second) now /\
   Locked.after (Locked.HandleRequest conn state now) = state).
Proof.
  intros Hread message.
  unfold Select.served.
  rewrite (Select_HandleRequest_read conn buffer Hread).
  rewrite (Locked_HandleRequest_read conn buffer state now Hread).
  fold message. cbn [Select.sent].
  repeat split; rewrite H; reflexivity.
Qed.

(** C7. A connection whose read fails, or whose text is none of the
    commands, changes nothing: no message is sent to the loop in one
    version, the state comes back as it was in the other, and all the
    handler did on the connection is its one read, nothing written. *)
Theorem unrecognized_ignored (g : Durations) (conn : Conn)
  (state : PomodoroState) (now : Time) :
  snd (conn_Read conn 128) <> None
  \/ (let message := TrimSpace (ToLower (fst (conn_Read conn 128))) in
      message <> "pause"%string /\ message <> "toggle"%string /\
      message <> "inc"%string /\ message <> "dec"%string) ->
  Select.sent (Select.HandleRequest conn) = None /\
  Select.served g conn state now = state /\
  Locked.after (Locked.HandleRequest conn state now) = state /\
  Select.calls (Select.HandleRequest conn) = [CallRead 128] /\
  Locked.calls (Locked.HandleRequest conn state now) = [CallRead 128].
Proof.
  intros Hcase.
  assert (Hsent : Select.sent (Select.HandleRequest conn) = None /\
                  Locked.after (Locked.HandleRequest conn state now) = state).
  { destruct (conn_Read conn 128) as [buffer [e |]] eqn:Hread.
    - apply HandleRequest_failed. rewrite Hread. discriminate.
    - destruct Hcase as [Herr | Hmsg]; [exfalso; apply Herr; reflexivity|].
      simpl in Hmsg. destruct Hmsg as (Hp & Ht & Hi & Hd).
      rewrite (Select_HandleRequest_read conn buffer Hread).
      rewrite (Locked_HandleRequest_read conn buffer state now Hread).
      apply String.eqb_neq in Hp, Ht, Hi, Hd.
      cbn [Select.sent]. unfold Select.dispatch.
      rewrite Hp, Ht, Hi, Hd. split; reflexivity. }
  destruct Hsent as [Hsent Hafter].
  pose proof (HandleRequest_calls conn state now) as [Hc1 Hc2].
  unfold Select.served. rewrite Hsent.
  repeat split; assumption.
Qed.

End Handler.

Lemma commands_dispatch_witness :
  Select.served (U := ascii_only) Locked.durations
    {| incoming := bytes [32; 80; 97; 117; 83; 69; 10]; failure := None |}
    (Locked.NewPomodoro Work false 0) Second
  = Select.Pause (Locked.NewPomodoro Work false 0) Second.
Proof.
  apply (commands_dispatch (U := ascii_only) Locked.durations
           {| incoming := bytes [32; 80; 97; 117; 83; 69; 10]; failure := None |}
           (bytes [32; 80; 97; 117; 83; 69; 10])
           (Locked.NewPomodoro Work false 0) Second eq_refl).
  reflexivity.
Defined.

Lemma unrecognized_ignored_witness :
  Select.sent (Select.HandleRequest (U := ascii_only)
                 {| incoming := "foobar"; failure := None |}) = None.
Proof.
  apply (unrecognized_ignored (U := ascii_only) Locked.durations
           {| incoming := "foobar"; failure := None |}
           (Locked.NewPomodoro Work false 0) Second).
  right. vm_compute. repeat split; discriminate.
Defined.

(** In the version with the mutex a connection that says [inc], with
    the line feed that [echo] adds, leaves the state as it was, where
    [Inc] with five seconds would have moved the end of the period from
    1500 to 1505 seconds. *)
Lemma inc_ignored_with_mutex :
  let conn := {| incoming := "inc" ++ bytes [10]; failure := None |} in
  let state := Locked.NewPomodoro Work false 0 in
  Locked.after (Locked.HandleRequest (U := ascii_only) conn state Second) = state /\
  End_ state = 1500 * Second /\
  End_ (Select.Inc state (5 * Second) Second) = 1505 * Second.
Proof.
  vm_compute. repeat split.
Qed.

(** ** Startup *)

(** In the version with the mutex, [main] has made the state and
    started [Update] before it tries to remove the socket file: a
    failed removal is reported after the scheduler was started. *)
Lemma scheduler_started_before_removal :
  Locked.main (Some "permission denied"%string) None
  = [ActNewPomodoro Work false; ActGoUpdate; ActRemoveAll SocketPath;
     ActPrintln "Error removing socket file: permission denied"; ActReturn].
Proof. reflexivity. Qed.

(** What [main] has done when the removal or the bind has failed. *)
Lemma main_after_failure (removeErr listenErr : option string) :
  removeErr <> None \/ listenErr <> None ->
  (exists line before,
      Select.main removeErr listenErr = before ++ [ActPrintln line; ActReturn]
      /\ (before = [ActRemoveAll SocketPath]
          \/ before = [ActRemoveAll SocketPath; ActListenUnix SocketPath])
      /\ Locked.main removeErr listenErr
         = ActNewPomodoro Work false :: ActGoUpdate :: before
             ++ [ActPrintln line; ActReturn]) /\
  (removeErr <> None ->
   ~ In (ActListenUnix SocketPath) (Select.main removeErr listenErr) /\
   ~ In (ActListenUnix SocketPath) (Locked.main removeErr listenErr)) /\
  ~ In ActLoop (Select.main removeErr listenErr) /\
  ~ In ActGoAccept (Select.main removeErr listenErr) /\
  ~ In ActGoUpdate (Select.main removeErr listenErr) /\
  (forall status paused,
      ~ In (ActNewPomodoro status paused) (Select.main removeErr listenErr)) /\
  ~ In ActLoop (Locked.main removeErr listenErr) /\
  ~ In ActGoAccept (Locked.main removeErr listenErr) /\
  In ActGoUpdate (Locked.main removeErr listenErr).
Proof.
  intros Hfail.
  destruct removeErr as [e |]; [| destruct listenErr as [e |]].
  - split.
    { exists ("Error removing socket file: " ++ e)%string, [ActRemoveAll SocketPath].
      split; [reflexivity|]. split; [left; reflexivity | reflexivity]. }
    simpl. repeat apply conj; try (intros; intro Hin);
      simpl in *; intuition discriminate.
  - split.
    { exists ("Error listening: " ++ e)%string,
        [ActRemoveAll SocketPath; ActListenUnix SocketPath].
      split; [reflexivity|]. split; [right; reflexivity | reflexivity]. }
    simpl. repeat apply conj; try (intros; intro Hin);
      simpl in *; intuition discriminate.
  - exfalso. destruct Hfail as [Hne | Hne]; apply Hne; reflexivity.
Qed.

(** C8, as the code has it. On every start [main] removes the socket
    file before it binds the socket, and binds only after a removal
    that worked. When the removal or the bind fails, [main] prints
    which of the two failed, with the error, and returns: the accept
    loop and the loop that prints the state are started exactly when
    both worked. The version with the [select] loop makes the state
    only then; the version with the mutex has made it, and started
    [Update], before the removal, on every start. *)
Theorem startup_failure (removeErr listenErr : option string) :
  (exists rest,
      Select.main removeErr listenErr = ActRemoveAll SocketPath :: rest /\
      (In (ActListenUnix SocketPath) rest <-> removeErr = None)) /\
  (exists rest,
      Locked.main removeErr listenErr
      = ActNewPomodoro Work false :: ActGoUpdate :: ActRemoveAll SocketPath :: rest /\
      (In (ActListenUnix SocketPath) rest <-> removeErr = None)) /\
  (forall e, removeErr = Some e ->
     Select.main removeErr listenErr
     = [ActRemoveAll SocketPath;
        ActPrintln ("Error removing socket file: " ++ e); ActReturn] /\
     Locked.main removeErr listenErr
     = [ActNewPomodoro Work false; ActGoUpdate; ActRemoveAll SocketPath;
        ActPrintln ("Error removing socket file: " ++ e); ActReturn]) /\
  (forall e, removeErr = None -> listenErr = Some e ->
     Select.main removeErr listenErr
     = [ActRemoveAll SocketPath; ActListenUnix SocketPath;
        ActPrintln ("Error listening: " ++ e); ActReturn] /\
     Locked.main removeErr listenErr
     = [ActNewPomodoro Work false; ActGoUpdate; ActRemoveAll SocketPath;
        ActListenUnix SocketPath;
        ActPrintln ("Error listening: " ++ e); ActReturn]) /\
  (removeErr = None -> listenErr = None ->
     Select.main removeErr listenErr
     = [ActRemoveAll SocketPath; ActListenUnix SocketPath; ActDeferClose;
        ActDeferRemove SocketPath; ActGoAccept; ActNewPomodoro Work true;
        ActLoop] /\
     Locked.main removeErr listenErr
     = [ActNewPomodoro Work false; ActGoUpdate; ActRemoveAll SocketPath;
        ActListenUnix SocketPath; ActDeferClose; ActGoAccept; ActLoop]) /\
  (In ActLoop (Select.main removeErr listenErr)
   <-> removeErr = None /\ listenErr = None) /\
  (In ActGoAccept (Select.main removeErr listenErr)
   <-> removeErr = None /\ listenErr = None) /\
  ((exists status paused,
       In (ActNewPomodoro status paused) (Select.main removeErr listenErr))
   <-> removeErr = None /\ listenErr = None) /\
  (In ActLoop (Locked.main removeErr listenErr)
   <-> removeErr = None /\ listenErr = None) /\
  (In ActGoAccept (Locked.main removeErr listenErr)
   <-> removeErr = None /\ listenErr = None) /\
  In ActGoUpdate (Locked.main removeErr listenErr) /\
  ~ In ActGoUpdate (Select.main removeErr listenErr) /\
  (removeErr <> None \/ listenErr <> None ->
   (exists line before,
       Select.main removeErr listenErr = before ++ [ActPrintln line; ActReturn]
       /\ (before = [ActRemoveAll SocketPath]
           \/ before = [ActRemoveAll SocketPath; ActListenUnix SocketPath])
       /\ Locked.main removeErr listenErr
          = ActNewPomodoro Work false :: ActGoUpdate :: before
              ++ [ActPrintln line; ActReturn]) /\
   (removeErr <> None ->
    ~ In (ActListenUnix SocketPath) (Select.main removeErr listenErr) /\
    ~ In (ActListenUnix SocketPath) (Locked.main removeErr listenErr)) /\
   ~ In ActLoop (Select.main removeErr listenErr) /\
   ~ In ActGoAccept (Select.main removeErr listenErr) /\
   ~ In ActGoUpdate (Select.main removeErr listenErr) /\
   (forall status paused,
       ~ In (ActNewPomodoro status paused) (Select.main removeErr listenErr)) /\
   ~ In ActLoop (Locked.main removeErr listenErr) /\
   ~ In ActGoAccept (Locked.main removeErr listenErr) /\
   In ActGoUpdate (Locked.main removeErr listenErr)).
Proof.
  pose proof (main_after_failure removeErr listenErr) as Hfailure.
  destruct removeErr as [e |]; [| destruct listenErr as [e |]];
    cbn [Select.main Locked.main] in *.
  all: split; [eexists; split; [reflexivity|];
               simpl; split; intros; try discriminate; intuition discriminate|].
  all: split; [eexists; split; [reflexivity|];
               simpl; split; intros; try discriminate; intuition discriminate|].
  all: split; [intros e' He'; try discriminate He';
               try (injection He' as <-); split; reflexivity|].
  all: split; [intros e' Hr He'; try discriminate Hr; try discriminate He';
               try (injection He' as <-); split; reflexivity|].
  all: split; [intros Hr Hl; try discriminate Hr; try discriminate Hl;
               split; reflexivity|].
  all: split; [simpl; split; [intros Hin | intros [Hr Hl]];
               try discriminate; intuition discriminate|].
  all: split; [simpl; split; [intros Hin | intros [Hr Hl]];
               try discriminate; intuition discriminate|].
  all: split; [simpl; split;
               [intros (status & paused & Hin) | intros [Hr Hl]];
               try discriminate;
               try (exists Work, true; intuition discriminate);
               intuition discriminate|].
  all: split; [simpl; split; [intros Hin | intros [Hr Hl]];
               try discriminate; intuition discriminate|].
  all: split; [simpl; split; [intros Hin | intros [Hr Hl]];
               try discriminate; intuition discriminate|].
  all: split; [simpl; intuition discriminate|].
  all: split; [simpl; intros Hin; intuition discriminate|].
  all: exact Hfailure.
Qed.

Lemma startup_failure_witness :
  Select.main None (Some "address already in use"%string)
  = [ActRemoveAll SocketPath; ActListenUnix SocketPath;
     ActPrintln "Error listening: address already in use"; ActReturn].
Proof.
  destruct (startup_failure None (Some "address already in use"%string))
    as (_ & _ & _ & Hlisten & _).
  apply (Hlisten "address already in use"%string eq_refl eq_refl).
Defined.

(** ** [ToLower] and [TrimSpace] on ASCII text *)

Lemma asciiSpace_ascii (c : ascii) :
  asciiSpace c = true -> code_of c < RuneSelf.
Proof.
  unfold asciiSpace, RuneSelf. cbv zeta.
  repeat rewrite orb_true_iff. rewrite !Z.eqb_eq. lia.
Qed.

Lemma code_of_byte_of (n : Z) : 0 <= n < 256 -> code_of (byte_of n) = n.
Proof.
  intros Hn. unfold code_of, byte_of.
  rewrite N_ascii_embedding by lia. lia.
Qed.

Lemma code_of_lowerByte (c : ascii) :
  code_of (lowerByte c) = if isUpper c then code_of c + 32 else code_of c.
Proof.
  unfold lowerByte. destruct (isUpper c) eqn:Hup; [|reflexivity].
  unfold isUpper in Hup. apply andb_prop in Hup. destruct Hup as [H1 H2].
  apply Z.leb_le in H1, H2.
  apply code_of_byte_of. lia.
Qed.

Lemma asciiSpace_lowerByte (c : ascii) :
  asciiSpace (lowerByte c) = asciiSpace c.
Proof.
  unfold asciiSpace. cbv zeta. rewrite code_of_lowerByte.
  destruct (isUpper c) eqn:Hup; [|reflexivity].
  unfold isUpper in Hup. apply andb_prop in Hup. destruct Hup as [H1 H2].
  apply Z.leb_le in H1, H2.
  repeat match goal with
         | |- context [?a =? ?b] => destruct (Z.eqb_spec a b); [lia|]
         end.
  reflexivity.
Qed.

Lemma lowerByte_ascii (c : ascii) :
  code_of c < RuneSelf -> code_of (lowerByte c) < RuneSelf.
Proof.
  unfold RuneSelf. rewrite code_of_lowerByte.
  destruct (isUpper c) eqn:Hup; [|trivial].
  unfold isUpper in Hup. apply andb_prop in Hup. destruct Hup as [H1 H2].
  apply Z.leb_le in H1, H2. lia.
Qed.

Lemma isASCII_Forall (s : string) :
  isASCII s = true <->
  Forall (fun c => code_of c < RuneSelf) (list_ascii_of_string s).
Proof.
  induction s as [| c s IH]; simpl.
  - split; [constructor | reflexivity].
  - rewrite andb_true_iff, Z.ltb_lt, IH. split.
    + intros [Hc Hs]. constructor; assumption.
    + intros Hall. inversion Hall; subst. split; assumption.
Qed.

Lemma list_of_mapBytes (f : ascii -> ascii) (s : string) :
  list_ascii_of_string (mapBytes f s) = map f (list_ascii_of_string s).
Proof.
  induction s as [| c s IH]; simpl; [reflexivity | rewrite IH; reflexivity].
Qed.

Lemma list_of_prefix (s : string) :
  forall k, list_ascii_of_string (substring 0 k s)
            = firstn k (list_ascii_of_string s).
Proof.
  induction s as [| c s IH]; intros [| k]; simpl; try reflexivity.
  rewrite IH. reflexivity.
Qed.

Lemma mapBytes_no_upper (s : string) :
  hasUpper s = false -> mapBytes lowerByte s = s.
Proof.
  induction s as [| c s IH]; simpl; [reflexivity|].
  intros Hup. apply orb_false_iff in Hup. destruct Hup as [Hc Hs].
  unfold lowerByte at 1. rewrite Hc, IH by exact Hs. reflexivity.
Qed.

Lemma ToLower_ascii {U : Unicode} (s : string) :
  isASCII s = true -> ToLower s = mapBytes lowerByte s.
Proof.
  intros Ha. unfold ToLower. rewrite Ha.
  destruct (hasUpper s) eqn:Hup; [reflexivity|].
  symmetry. apply mapBytes_no_upper. exact Hup.
Qed.

Lemma leadingSpace_lower (s : string) :
  leadingSpace (mapBytes lowerByte s) = leadingSpace s.
Proof.
  induction s as [| c s IH]; simpl; [reflexivity|].
  rewrite asciiSpace_lowerByte, IH. reflexivity.
Qed.

(** The loop of [TrimSpace] over ASCII bytes: it drops the spaces in
    front and stops at a byte. *)
Lemma skipSpace_split (l : list ascii) :
  Forall (fun c => code_of c < RuneSelf) l ->
  exists sp rest,
    l = sp ++ rest /\
    Forall (fun c => asciiSpace c = true) sp /\
    skipSpace l = AtByte rest.
Proof.
  induction l as [| c l IH]; intros Hall.
  - exists [], []. repeat split. constructor.
  - inversion Hall as [| c' l' Hc Hl]; subst.
    destruct (IH Hl) as (sp & rest & Hsplit & Hsp & Hskip).
    simpl. destruct (Z.leb_spec RuneSelf (code_of c)) as [Hge | _]; [lia|].
    destruct (asciiSpace c) eqn:Hspace.
    + exists (c :: sp), rest. repeat split.
      * simpl. rewrite <- Hsplit. reflexivity.
      * constructor; assumption.
      * exact Hskip.
    + exists [], (c :: l). repeat split. constructor.
Qed.

Lemma skipSpace_spaces (sp rest : list ascii) :
  Forall (fun c => asciiSpace c = true) sp ->
  skipSpace (sp ++ rest) = skipSpace rest.
Proof.
  induction sp as [| c sp IH]; intros Hsp; [reflexivity|].
  inversion Hsp as [| c' sp' Hc Hsp']; subst.
  simpl. pose proof (asciiSpace_ascii c Hc) as Hlt.
  destruct (Z.leb_spec RuneSelf (code_of c)) as [Hge | _]; [lia|].
  rewrite Hc. apply IH. exact Hsp'.
Qed.

Lemma skipSpace_plain (c : ascii) (l : list ascii) :
  code_of c < RuneSelf -> asciiSpace c = false ->
  skipSpace (c :: l) = AtByte (c :: l).
Proof.
  intros Hlt Hc. simpl.
  destruct (Z.leb_spec RuneSelf (code_of c)) as [Hge | _]; [lia|].
  rewrite Hc. reflexivity.
Qed.

Section Trim.

Context {U : Unicode}.

(** Spaces, then bytes that are no spaces, then spaces: [TrimSpace]
    keeps the middle. *)
Lemma TrimSpace_core (sp1 core sp2 : list ascii) :
  Forall (fun c => asciiSpace c = true) sp1 ->
  Forall (fun c => asciiSpace c = true) sp2 ->
  Forall (fun c => code_of c < RuneSelf /\ asciiSpace c = false) core ->
  TrimSpace (string_of_list_ascii (sp1 ++ core ++ sp2))
  = string_of_list_ascii core.
Proof.
  intros Hsp1 Hsp2 Hcore. unfold TrimSpace.
  rewrite list_ascii_of_string_of_list_ascii.
  rewrite skipSpace_spaces by exact Hsp1.
  destruct core as [| c core].
  - simpl app. rewrite <- (app_nil_r sp2).
    rewrite skipSpace_spaces by exact Hsp2. reflexivity.
  - inversion Hcore as [| c' core' [Hlt Hc] Hcore']; subst.
    simpl app. rewrite skipSpace_plain by assumption.
    change (c :: core ++ sp2) with ((c :: core) ++ sp2).
    rewrite rev_app_distr.
    rewrite skipSpace_spaces by (apply Forall_rev; exact Hsp2).
    assert (Hrev : Forall (fun c => code_of c < RuneSelf /\ asciiSpace c = false)
                     (rev (c :: core)))
      by (apply Forall_rev; exact Hcore).
    destruct (rev (c :: core)) as [| d tser] eqn:Htser.
    + apply (f_equal (@List.length ascii)) in Htser.
      rewrite length_rev in Htser. discriminate Htser.
    + inversion Hrev as [| d' tser' [Hlt' Hd] _]; subst.
      rewrite skipSpace_plain by assumption.
      rewrite <- Htser, rev_involutive. reflexivity.
Qed.

(** On ASCII text [TrimSpace] takes spaces off both ends. *)
Lemma TrimSpace_decompose (l : list ascii) :
  Forall (fun c => code_of c < RuneSelf) l ->
  exists sp1 sp2,
    l = sp1 ++ list_ascii_of_string (TrimSpace (string_of_list_ascii l)) ++ sp2 /\
    Forall (fun c => asciiSpace c = true) sp1 /\
    Forall (fun c => asciiSpace c = true) sp2.
Proof.
  intros Hall. unfold TrimSpace.
  rewrite list_ascii_of_string_of_list_ascii.
  destruct (skipSpace_split l Hall) as (sp1 & rest & Hl & Hsp1 & Hskip).
  rewrite Hskip.
  assert (Hrest : Forall (fun c => code_of c < RuneSelf) (rev rest)).
  { apply Forall_rev. rewrite Hl in Hall.
    apply Forall_app in Hall. apply Hall. }
  destruct (skipSpace_split (rev rest) Hrest) as (sp2 & tser & Hr & Hsp2 & Hskip2).
  rewrite Hskip2.
  exists sp1, (rev sp2). split; [|split].
  - rewrite list_ascii_of_string_of_list_ascii.
    rewrite <- rev_app_distr, <- Hr, rev_involutive. exact Hl.
  - exact Hsp1.
  - apply Forall_rev. exact Hsp2.
Qed.

End Trim.

Lemma leadingSpace_app (sp : list ascii) (c : ascii) (rest : list ascii) :
  Forall (fun c => asciiSpace c = true) sp ->
  asciiSpace c = false ->
  leadingSpace (string_of_list_ascii (sp ++ c :: rest)) = List.length sp.
Proof.
  induction sp as [| d sp IH]; intros Hsp Hc; simpl.
  - rewrite Hc. reflexivity.
  - inversion Hsp as [| d' sp' Hd Hsp']; subst.
    rewrite Hd, IH by assumption. reflexivity.
Qed.

(** The four commands. *)
Lemma dispatch_some (cmd : string) :
  Select.dispatch cmd <> None ->
  cmd = "pause"%string \/ cmd = "toggle"%string
  \/ cmd = "inc"%string \/ cmd = "dec"%string.
Proof.
  unfold Select.dispatch.
  destruct (String.eqb_spec cmd "pause"); [auto|].
  destruct (String.eqb_spec cmd "toggle"); [auto|].
  destruct (String.eqb_spec cmd "inc"); [auto|].
  destruct (String.eqb_spec cmd "dec"); [auto|].
  intros Hne. exfalso. apply Hne. reflexivity.
Qed.

Lemma dispatch_none (message : string) :
  Select.dispatch message = None ->
  String.eqb message "pause" = false /\ String.eqb message "toggle" = false.
Proof.
  unfold Select.dispatch.
  destruct (String.eqb message "pause"); [discriminate|].
  destruct (String.eqb message "toggle"); [discriminate|].
  split; reflexivity.
Qed.

(** A command has no space in it, and no proper prefix of a command is
    a command. *)
Lemma command_plain (cmd : string) :
  Select.dispatch cmd <> None ->
  Forall (fun c => code_of c < RuneSelf /\ asciiSpace c = false)
    (list_ascii_of_string cmd) /\
  (exists c rest, list_ascii_of_string cmd = c :: rest /\ asciiSpace c = false) /\
  (forall j, (j < String.length cmd)%nat ->
     Select.dispatch (string_of_list_ascii (firstn j (list_ascii_of_string cmd)))
     = None).
Proof.
  intros Hcmd.
  destruct (dispatch_some cmd Hcmd) as [-> | [-> | [-> | ->]]].
  all: split; [repeat constructor | split; [eexists; eexists; split; reflexivity|]].
  all: intros j Hj; simpl in Hj.
  all: do 6 (destruct j as [| j]; [first [reflexivity | lia] |]); lia.
Qed.

Lemma Forall_prefix {A : Type} (P : A -> Prop) (l : list A) :
  Forall P l -> forall k, Forall P (firstn k l).
Proof.
  induction 1 as [| a l Ha Hl IH]; intros [| k]; simpl; constructor; auto.
Qed.

Lemma length_list_of_string (s : string) :
  List.length (list_ascii_of_string s) = String.length s.
Proof.
  induction s as [| c s IH]; simpl; [reflexivity | rewrite IH; reflexivity].
Qed.

(** The bytes of a message that a read delivers, against the place
    where the text of its command ends. *)
Lemma chunk_trim {U : Unicode} (message : string) (k : nat) (cmd : string) :
  isASCII message = true ->
  TrimSpace (ToLower message) = cmd ->
  Select.dispatch cmd <> None ->
  ((leadingSpace message + String.length cmd <= k)%nat ->
   TrimSpace (ToLower (substring 0 k message)) = cmd) /\
  ((k < leadingSpace message + String.length cmd)%nat ->
   Select.dispatch (TrimSpace (ToLower (substring 0 k message))) = None).
Proof.
  intros Ha Ht Hcmd.
  pose proof (proj1 (isASCII_Forall message) Ha) as Hall.
  rewrite ToLower_ascii in Ht by exact Ha.
  set (L := list_ascii_of_string message) in *.
  assert (Hall' : Forall (fun c => code_of c < RuneSelf) (map lowerByte L)).
  { apply Forall_map. eapply Forall_impl; [|exact Hall].
    intros c. apply lowerByte_ascii. }
  destruct (TrimSpace_decompose (map lowerByte L) Hall')
    as (sp1 & sp2 & HL & Hsp1 & Hsp2).
  unfold L in HL at 2.
  rewrite <- list_of_mapBytes, string_of_list_ascii_of_string, Ht in HL.
  destruct (command_plain cmd Hcmd) as (Hplain & (c & rest & Hfirst & Hc) & Hprefix).
  assert (Hlead : leadingSpace message = List.length sp1).
  { rewrite <- leadingSpace_lower.
    rewrite <- (string_of_list_ascii_of_string (mapBytes lowerByte message)).
    rewrite list_of_mapBytes. fold L. rewrite HL, Hfirst.
    change ((c :: rest) ++ sp2) with (c :: rest ++ sp2).
    apply leadingSpace_app; assumption. }
  assert (Hchunk : TrimSpace (ToLower (substring 0 k message))
                   = TrimSpace (string_of_list_ascii (firstn k (map lowerByte L)))).
  { rewrite ToLower_ascii.
    - rewrite <- (string_of_list_ascii_of_string
                    (mapBytes lowerByte (substring 0 k message))).
      rewrite list_of_mapBytes, list_of_prefix, firstn_map. reflexivity.
    - apply isASCII_Forall. rewrite list_of_prefix.
      apply Forall_prefix. exact Hall. }
  rewrite Hchunk, HL, Hlead, <- length_list_of_string.
  set (C := list_ascii_of_string cmd) in *.
  split; intros Hk.
  - rewrite app_assoc, firstn_app, length_app.
    rewrite (firstn_all2 (sp1 ++ C)) by (rewrite length_app; lia).
    rewrite <- app_assoc.
    rewrite TrimSpace_core;
      [unfold C; apply string_of_list_ascii_of_string | exact Hsp1 | | exact Hplain].
    apply Forall_prefix. exact Hsp2.
  - rewrite app_assoc, firstn_app, length_app.
    replace (k - (List.length sp1 + List.length C))%nat with 0%nat by lia.
    rewrite firstn_0, app_nil_r, firstn_app.
    rewrite <- (app_nil_r (firstn (k - List.length sp1) C)).
    rewrite TrimSpace_core.
    + apply Hprefix. rewrite <- length_list_of_string. fold C.
      assert (Hpos : (0 < List.length C)%nat) by (rewrite Hfirst; simpl; lia).
      lia.
    + apply Forall_prefix. exact Hsp1.
    + constructor.
    + apply Forall_prefix. exact Hplain.
Qed.

(** ** One read for a connection *)

(** A message of 129 bytes, the command and 124 spaces behind it: the
    read takes 128 of them and the command is met. *)
Lemma long_message_recognized :
  let message := ("pause" ++ string_of_list_ascii (repeat " "%char 124))%string in
  let conn := {| incoming := message; failure := None |} in
  let state := Locked.NewPomodoro Work false 0 in
  String.length message = 129%nat /\
  Select.HandleRequest (U := ascii_only) conn
  = {| Select.calls := [CallRead 128];
       Select.printed := [];
       Select.sent := Some Select.pauseChannel |} /\
  Locked.after (Locked.HandleRequest (U := ascii_only) conn state Second)
  = Locked.Pause state Second /\
  Paused (Locked.Pause state Second) = true /\
  Paused state = false.
Proof.
  vm_compute. repeat split.
Qed.

Lemma prefix_prefix (s : string) (i j : nat) :
  substring 0 i (substring 0 j s) = substring 0 (Nat.min i j) s.
Proof.
  rewrite <- (string_of_list_ascii_of_string (substring 0 i (substring 0 j s))).
  rewrite <- (string_of_list_ascii_of_string (substring 0 (Nat.min i j) s)).
  rewrite !list_of_prefix, firstn_firstn. reflexivity.
Qed.

Lemma conn_Read_data (data : string) :
  data <> EmptyString ->
  conn_Read {| incoming := data; failure := None |} 128
  = (substring 0 128 data, None).
Proof.
  intros Hne. unfold conn_Read. simpl.
  destruct data; [contradiction | reflexivity].
Qed.

(** C10, as the code has it. A handler reads its connection once, into
    a buffer of 128 bytes, and makes no other call on it. Of an ASCII
    message that is a command, the bytes that have arrived by then, 128
    at most, are what the handler sees: the command is met exactly when
    its text ends within them, and before that nothing is sent and the
    state stays. How long the whole message is does not matter: bytes
    behind the text of the command are spaces. *)
Theorem single_read_boundary {U : Unicode} (message : string) (arrived : nat)
  (cmd : string) (state : PomodoroState) (now : Time) :
  isASCII message = true ->
  TrimSpace (ToLower message) = cmd ->
  Select.dispatch cmd <> None ->
  let conn := {| incoming := substring 0 arrived message; failure := None |} in
  let delivered := Nat.min arrived 128 in
  Select.calls (Select.HandleRequest conn) = [CallRead 128] /\
  Locked.calls (Locked.HandleRequest conn state now) = [CallRead 128] /\
  ((leadingSpace message + String.length cmd <= delivered)%nat ->
   Select.sent (Select.HandleRequest conn) = Select.dispatch cmd /\
   Locked.after (Locked.HandleRequest conn state now)
   = (if String.eqb cmd "pause" then Locked.Pause state now
      else if String.eqb cmd "toggle" then Toggle Locked.durations state now
      else state)) /\
  ((delivered < leadingSpace message + String.length cmd)%nat ->
   Select.sent (Select.HandleRequest conn) = None /\
   Locked.after (Locked.HandleRequest conn state now) = state).
Proof.
  intros Ha Ht Hcmd conn delivered.
  pose proof (HandleRequest_calls conn state now) as [Hc1 Hc2].
  split; [exact Hc1|]. split; [exact Hc2|].
  destruct (string_dec (substring 0 arrived message) EmptyString) as [He | Hne].
  - assert (Hfail : snd (conn_Read conn 128) <> None).
    { unfold conn, conn_Read. simpl. rewrite He. discriminate. }
    destruct (HandleRequest_failed conn state now Hfail) as [Hs Hl].
    split; [|intros _; split; assumption].
    intros Hk. exfalso.
    destruct (chunk_trim message arrived cmd Ha Ht Hcmd) as [Hin _].
    rewrite He in Hin. apply Hcmd. rewrite <- Hin; [reflexivity|].
    unfold delivered in Hk. lia.
  - pose proof (conn_Read_data _ Hne) as Hread. fold conn in Hread.
    rewrite prefix_prefix, Nat.min_comm in Hread. fold delivered in Hread.
    rewrite (Select_HandleRequest_read conn _ Hread).
    rewrite (Locked_HandleRequest_read conn _ state now Hread).
    cbn [Select.sent].
    destruct (chunk_trim message delivered cmd Ha Ht Hcmd) as [Hin Hout].
    split; intros Hk.
    + rewrite (Hin Hk). split; reflexivity.
    + specialize (Hout Hk).
      destruct (dispatch_none _ Hout) as [Hp Hg].
      rewrite Hout, Hp, Hg. split; reflexivity.
Qed.

Lemma single_read_boundary_witness :
  let message := (string_of_list_ascii (repeat " "%char 126) ++ "pause")%string in
  let conn := {| incoming := message; failure := None |} in
  Select.sent (Select.HandleRequest (U := ascii_only) conn) = None.
Proof.
  intros message conn.
  apply (single_read_boundary (U := ascii_only) message 131 "pause"
           (Locked.NewPomodoro Work false 0) Second);
    vm_compute; first [reflexivity | discriminate | lia].
Defined.

(** * More of the program *)

(** ** Rounding of whole seconds, and the seconds shown *)

Lemma Duration_Round_Second_whole (k : Z) :
  minDuration + Second <= k * Second <= maxDuration - Second ->
  Duration_Round (k * Second) Second = k * Second.
Proof.
  intros Hk.
  destruct (Duration_Round_Second_near (k * Second) Hk) as [Hmod Hnear].
  pose proof (Z.div_mod (Duration_Round (k * Second) Second) Second) as Hdiv.
  rewrite Hmod in Hdiv. rewrite Second_value in *. lia.
Qed.

Lemma shown_seconds (e : Duration) :
  minDuration <= e <= maxDuration ->
  60 * int_Minutes e + int64 (int_Seconds e - 60 * int_Minutes e) = e ÷ Second.
Proof.
  intros He. unfold int_Minutes, int_Seconds.
  rewrite Minute_value.
  replace (60 * Second) with (Second * 60) by lia.
  rewrite <- Z.quot_quot by (rewrite ?Second_value; lia).
  set (q := e ÷ Second).
  pose proof (Z.quot_rem' q 60) as H60.
  pose proof (Z.rem_bound_abs q 60 ltac:(lia)) as Hr.
  rewrite int64_small; lia.
Qed.

Lemma Duration_Round_Second_step (d : Duration) :
  Second <= d <= maxDuration - Second ->
  Duration_Round (d - Second) Second = Duration_Round d Second - Second.
Proof.
  unfold maxDuration. rewrite Second_value. intros Hd.
  unfold Duration_Round.
  replace (1000000000 <=? 0) with false by reflexivity.
  destruct (Z.ltb_spec (d - 1000000000) 0) as [Hneg | _]; [lia|].
  destruct (Z.ltb_spec d 0) as [Hneg | _]; [lia|].
  assert (Hrem : Z.rem (d - 1000000000) 1000000000 = Z.rem d 1000000000).
  { rewrite !Z.rem_mod_nonneg by lia.
    replace (d - 1000000000) with (d + (- 1) * 1000000000) by lia.
    apply Z.mod_add. lia. }
  rewrite Hrem.
  pose proof (Z.rem_bound_pos d 1000000000 ltac:(lia) eq_refl) as Hr.
  rewrite !lessThanHalf_spec by lia.
  destruct (Z.ltb_spec (2 * Z.rem d 1000000000) 1000000000).
  - rewrite !int64_small by lia. lia.
  - rewrite !int64_small by lia.
    destruct (Z.ltb_spec (d - 1000000000)
                (d - 1000000000 + 1000000000 - Z.rem d 1000000000)); [|lia].
    destruct (Z.ltb_spec d (d + 1000000000 - Z.rem d 1000000000)); lia.
Qed.

(** ** The first line *)

(** With a work period of [w] minutes, under a hundred, the state that
    [main] makes shows [w:00] at the instant it is made: behind the
    pause glyph in the version that starts paused, and [25:00] behind
    the tomato in the version that starts running. *)
Theorem first_line (w r : Z) (start : Time) :
  0 <= w < 100 ->
  PomodoroState_String
    (Select.NewPomodoro (Select.main_durations w r) Work true start) start
  = (PauseEmoji ++ " " ++ two_digits w ++ ":00")%string /\
  PomodoroState_String (Locked.NewPomodoro Work false start) start
  = (TomatoEmoji ++ " 25:00")%string.
Proof.
  intros Hw.
  assert (Hshow : forall state k icon,
             0 <= k < 100 ->
             End_ state = start + k * Minute ->
             suffix state = icon ->
             PomodoroState_String state start
             = (icon ++ " " ++ two_digits k ++ ":00")%string).
  { intros state k icon Hk Hend Hicon.
    assert (He : elapsedTime state start = (k * 60) * Second).
    { unfold elapsedTime. rewrite Hend.
      rewrite Time_Sub_exact
        by (unfold minDuration, maxDuration; rewrite Minute_value, Second_value; lia).
      replace (start + k * Minute - start) with ((k * 60) * Second)
        by (rewrite Minute_value; lia).
      apply Duration_Round_Second_whole.
      unfold minDuration, maxDuration. rewrite Second_value. lia. }
    assert (Hm : minutes state start = k).
    { unfold minutes, int_Minutes. rewrite He, Minute_value.
      replace (k * 60 * Second) with (k * (60 * Second)) by lia.
      apply Z.quot_mul. rewrite Second_value. lia. }
    assert (Hs : seconds state start = 0).
    { unfold seconds. rewrite Hm. unfold int_Seconds. rewrite He.
      rewrite Z.quot_mul by (rewrite Second_value; lia).
      replace (k * 60 - 60 * k) with 0 by lia. reflexivity. }
    unfold PomodoroState_String.
    rewrite Hm, Hs, Hicon, fmt_02d_two_digits by lia. reflexivity. }
  split.
  - apply Hshow; [exact Hw | | reflexivity].
    cbn [Select.NewPomodoro End_ Select.main_durations GetDuration].
    unfold GetDuration, Time_Add. cbn [WorkDuration Select.main_durations].
    replace (Work =? Work) with true by reflexivity.
    rewrite int64_small; [reflexivity|].
    rewrite Minute_value, Second_value. lia.
  - apply (Hshow (Locked.NewPomodoro Work false start) 25 TomatoEmoji);
      [lia | reflexivity | reflexivity].
Qed.

Lemma first_line_witness :
  PomodoroState_String
    (Select.NewPomodoro (Select.main_durations 50 10) Work true 7) 7
  = (PauseEmoji ++ " 50:00")%string.
Proof.
  apply (first_line 50 10 7). lia.
Defined.

(** ** The flags *)

(** [main] multiplies the flags by a minute in [int64]: a flag of up
    to 153722867 minutes either way gives just that duration, and the
    next flag up wraps around to a negative one. *)
Theorem flags_exact (wFlag rFlag : Z) :
  - 153722867 <= wFlag <= 153722867 ->
  - 153722867 <= rFlag <= 153722867 ->
  WorkDuration (Select.main_durations wFlag rFlag) = wFlag * Minute /\
  RestDuration (Select.main_durations wFlag rFlag) = rFlag * Minute /\
  WorkDuration (Select.main_durations 153722868 rFlag) < 0 /\
  RestDuration (Select.main_durations wFlag 153722868) < 0.
Proof.
  intros Hw Hr. cbn [Select.main_durations WorkDuration RestDuration].
  rewrite !int64_small by (rewrite Minute_value, Second_value; lia).
  repeat split; reflexivity.
Qed.

Lemma flags_exact_witness :
  Select.main_durations 25 5 = Locked.durations.
Proof.
  destruct (flags_exact 25 5) as (Hw & Hr & _); [lia | lia |].
  unfold Select.main_durations in *. cbn [WorkDuration RestDuration] in *.
  unfold Locked.durations. rewrite Hw, Hr. reflexivity.
Defined.

(** ** The countdown *)

(** While a second or more is left, [String] called a second later
    shows one second less: the rounded remaining time goes down by a
    second, and so does the number of seconds that the two fields
    add up to. *)
Theorem countdown (state : PomodoroState) (now : Time) :
  Second <= End_ state - now <= maxDuration - Second ->
  elapsedTime state (now + Second) = elapsedTime state now - Second /\
  60 * minutes state (now + Second) + seconds state (now + Second)
  = 60 * minutes state now + seconds state now - 1.
Proof.
  intros Hrem.
  assert (Hstep : elapsedTime state (now + Second) = elapsedTime state now - Second).
  { unfold elapsedTime.
    rewrite !Time_Sub_exact
      by (unfold minDuration, maxDuration in *; rewrite Second_value in *; lia).
    replace (End_ state - (now + Second)) with (End_ state - now - Second) by lia.
    apply Duration_Round_Second_step. exact Hrem. }
  split; [exact Hstep|].
  unfold minutes, seconds.
  rewrite !shown_seconds by apply elapsedTime_range.
  rewrite Hstep.
  assert (Hmul : (elapsedTime state now) mod Second = 0).
  { unfold elapsedTime.
    rewrite Time_Sub_exact
      by (unfold minDuration, maxDuration in *; rewrite Second_value in *; lia).
    apply Duration_Round_Second_near.
    unfold minDuration, maxDuration in *. rewrite Second_value in *. lia. }
  pose proof (Z.div_mod (elapsedTime state now) Second) as Hdiv.
  rewrite Hmul in Hdiv.
  set (e := elapsedTime state now) in *.
  assert (He : e = (e / Second) * Second) by (rewrite Second_value in *; lia).
  rewrite He at 1 2.
  replace (e / Second * Second - Second) with ((e / Second - 1) * Second) by lia.
  rewrite !Z.quot_mul by (rewrite Second_value; lia). lia.
Qed.

Lemma countdown_witness :
  60 * minutes (Locked.NewPomodoro Work false 0) (1 * Second)
  + seconds (Locked.NewPomodoro Work false 0) (1 * Second)
  = 1499.
Proof.
  change (1 * Second) with (0 + Second).
  destruct (countdown (Locked.NewPomodoro Work false 0) 0) as [_ Hone].
  - vm_compute. split; discriminate.
  - rewrite Hone. reflexivity.
Defined.

(** ** Runs of events *)

Lemma Select_ticks_nonneg (evs : list (Select.Event * Time)) :
  0 <= Select.ticks evs.
Proof.
  induction evs as [| [ev now] evs IH]; [reflexivity|].
  destruct ev; cbn [Select.ticks]; lia.
Qed.

Lemma Time_Round_again (t k : Z) :
  Time_Round (Time_Round t Second + k * Second) Second
  = Time_Round t Second + k * Second.
Proof.
  rewrite Time_Round_shift, Time_Round_fixed by apply Time_Round_multiple.
  reflexivity.
Qed.

Lemma loop_cons (g : Durations) (state : PomodoroState) (ev : Select.Event)
  (now : Time) (evs : list (Select.Event * Time)) :
  fst (Select.loop g state ((ev, now) :: evs))
  = fst (Select.loop g (Select.select_case g state ev now) evs).
Proof.
  simpl Select.loop. unfold Select.loop_turn.
  destruct (Select.loop g (Select.select_case g state ev now) evs).
  reflexivity.
Qed.

Lemma select_case_tick_paused (g : Durations) (state : PomodoroState) (now : Time) :
  Paused state = true ->
  Paused (Select.select_case g state Select.TickerC now) = true /\
  Status (Select.select_case g state Select.TickerC now) = Status state /\
  End_ (Select.select_case g state Select.TickerC now)
  = Time_Round (End_ state) Second + 1 * Second.
Proof.
  intros Hp. unfold Select.select_case. simpl Select.receive. cbn [Paused].
  rewrite Hp. cbn [Select.Inc Paused Status End_]. unfold Time_Add.
  rewrite Time_Round_shift. auto.
Qed.

Lemma select_case_expiry_paused (g : Durations) (state : PomodoroState) (now : Time) :
  Paused state = true ->
  Paused (Select.select_case g state Select.TimerC now) = true /\
  Status (Select.select_case g state Select.TimerC now) = Status state /\
  End_ (Select.select_case g state Select.TimerC now) = End_ state.
Proof.
  intros Hp. unfold Select.select_case. simpl Select.receive. cbn [Paused].
  rewrite Hp. cbn [negb Paused Status End_]. auto.
Qed.

(** While the state is paused, the ticks and expiries of the loop
    never change the phase or the paused flag, whatever their number
    and their instants; the end of the period stays put without a tick,
    and with ticks it is its nearest whole second plus one second for
    each tick; and [Pause] called after them sets the timer to fire at
    just that end of the period. *)
Theorem paused_time_driven (g : Durations) (evs : list (Select.Event * Time)) :
  forall state : PomodoroState,
    Paused state = true ->
    Forall (fun e => Select.time_driven (fst e) = true) evs ->
    Paused (fst (Select.loop g state evs)) = true /\
    Status (fst (Select.loop g state evs)) = Status state /\
    End_ (fst (Select.loop g state evs))
    = (if Select.ticks evs =? 0 then End_ state
       else Time_Round (End_ state) Second + Select.ticks evs * Second) /\
    (forall resume : Time,
        minDuration <= End_ (fst (Select.loop g state evs)) - resume <= maxDuration ->
        Timer (Select.Pause (fst (Select.loop g state evs)) resume)
        = Some (End_ (fst (Select.loop g state evs)))).
Proof.
  assert (Hresume : forall final resume,
             Paused final = true ->
             minDuration <= End_ final - resume <= maxDuration ->
             Timer (Select.Pause final resume) = Some (End_ final)).
  { intros final resume Hp Hr. cbn [Select.Pause Timer]. rewrite Hp.
    unfold Timer_Reset. rewrite Time_Sub_exact by exact Hr. f_equal. lia. }
  induction evs as [| [ev now] evs IH]; intros state Hp Hall.
  - repeat split; [assumption|]. intros resume Hr. apply Hresume; assumption.
  - inversion Hall as [| e evs' Hev Hall']; subst. simpl fst in Hev.
    rewrite loop_cons.
    pose proof (Select_ticks_nonneg evs) as Hn.
    destruct ev as [| | m]; [| |discriminate Hev].
    + destruct (select_case_tick_paused g state now Hp) as (Hp1 & Hs1 & He1).
      destruct (IH _ Hp1 Hall') as (Hp' & Hs' & He' & Hr').
      split; [exact Hp'|]. split; [congruence|]. split; [|exact Hr'].
      rewrite He', He1. cbn [Select.ticks].
      destruct (Z.eqb_spec (Select.ticks evs) 0) as [H0 | H0];
        destruct (Z.eqb_spec (1 + Select.ticks evs) 0) as [H1 | H1]; try lia.
      rewrite Time_Round_again. lia.
    + destruct (select_case_expiry_paused g state now Hp) as (Hp1 & Hs1 & He1).
      destruct (IH _ Hp1 Hall') as (Hp' & Hs' & He' & Hr').
      split; [exact Hp'|]. split; [congruence|]. split; [|exact Hr'].
      rewrite He', He1. reflexivity.
Qed.

Lemma paused_time_driven_witness :
  End_ (fst (Select.loop Locked.durations
               (Select.NewPomodoro Locked.durations Work true 300)
               [(Select.TickerC, 1300); (Select.TimerC, 1400);
                (Select.TickerC, 2300)]))
  = Time_Round (300 + 25 * Minute) Second + 2 * Second.
Proof.
  apply (paused_time_driven Locked.durations
           [(Select.TickerC, 1300); (Select.TimerC, 1400); (Select.TickerC, 2300)]
           (Select.NewPomodoro Locked.durations Work true 300) eq_refl).
  repeat constructor.
Defined.

Lemma Update_cons (state : PomodoroState) (ev : Locked.Event) (now : Time)
  (evs : list (Locked.Event * Time)) :
  Locked.Update state ((ev, now) :: evs)
  = Locked.Update (Locked.Update_case state ev now) evs.
Proof. reflexivity. Qed.

Lemma Locked_ticks_nonneg (evs : list (Locked.Event * Time)) :
  0 <= Locked.ticks evs.
Proof.
  induction evs as [| [ev now] evs IH]; [reflexivity|].
  destruct ev; cbn [Locked.ticks]; lia.
Qed.

(** [Update] never touches the paused flag; the phase after it depends
    on the parity of the expiries it met; and without an expiry the end
    of the period has moved by one second for each tick, exactly, so
    that [Pause] called after the ticks of a pause sets the timer to
    fire at the old end of the period plus the seconds spent paused. *)
Theorem Update_runs (evs : list (Locked.Event * Time)) :
  forall state : PomodoroState,
    Status state = Work \/ Status state = Rest ->
    Paused (Locked.Update state evs) = Paused state /\
    Status (Locked.Update state evs)
    = (if Nat.even (Locked.expiries evs) then Status state else 1 - Status state) /\
    (Locked.expiries evs = O ->
     End_ (Locked.Update state evs) = End_ state + Locked.ticks evs * Second /\
     Timer (Locked.Update state evs) = Timer state /\
     (forall resume : Time,
         Paused state = true ->
         minDuration <= End_ state + Locked.ticks evs * Second - resume
                     <= maxDuration ->
         Timer (Locked.Pause (Locked.Update state evs) resume)
         = Some (End_ state + Locked.ticks evs * Second))).
Proof.
  induction evs as [| [ev now] evs IH]; intros state Hv.
  - split; [reflexivity|]. split; [reflexivity|]. intros _.
    cbn [Locked.Update fold_left Locked.ticks].
    split; [lia|]. split; [reflexivity|].
    intros resume Hp Hr. cbn [Locked.Pause Timer]. rewrite Hp.
    unfold Timer_Reset. rewrite Time_Sub_exact by lia. f_equal. lia.
  - rewrite Update_cons. destruct ev.
    + assert (Hv' : Status (Locked.Update_case state Locked.TimerC now) = Work
                    \/ Status (Locked.Update_case state Locked.TimerC now) = Rest).
      { cbn [Locked.Update_case]. rewrite Toggle_Status by exact Hv.
        unfold Work, Rest in *. lia. }
      destruct (IH _ Hv') as (Hp' & Hs' & _).
      split; [exact Hp'|]. split; [|discriminate].
      rewrite Hs'. cbn [Locked.Update_case Locked.expiries].
      rewrite Toggle_Status by exact Hv.
      rewrite Nat.even_succ, <- Nat.negb_even.
      destruct (Nat.even (Locked.expiries evs)); cbn [negb]; lia.
    + set (s1 := Locked.Update_case state Locked.TickerC now).
      assert (He1 : End_ s1 = End_ state + 1 * Second) by reflexivity.
      assert (Ht1 : Timer s1 = Timer state) by reflexivity.
      assert (Hp1 : Paused s1 = Paused state) by reflexivity.
      assert (Hs1 : Status s1 = Status state) by reflexivity.
      destruct (IH s1) as (Hp' & Hs' & Hrest); [rewrite Hs1; exact Hv|].
      split; [rewrite Hp'; exact Hp1|].
      split; [rewrite Hs', Hs1; reflexivity|].
      cbn [Locked.expiries Locked.ticks]. intros H0.
      destruct (Hrest H0) as (He' & Ht' & Hr').
      split; [rewrite He', He1; lia|].
      split; [rewrite Ht'; exact Ht1|].
      intros resume Hp Hr.
      rewrite (Hr' resume).
      * f_equal. rewrite He1. lia.
      * rewrite Hp1. exact Hp.
      * rewrite He1. lia.
Qed.

Lemma Update_runs_witness :
  Timer (Locked.Pause
           (Locked.Update (Locked.Pause (Locked.NewPomodoro Work false 0) 10)
              [(Locked.TickerC, 20); (Locked.TickerC, 30); (Locked.TickerC, 40)])
           50)
  = Some (25 * Minute + 3 * Second).
Proof.
  destruct (Update_runs
              [(Locked.TickerC, 20); (Locked.TickerC, 30); (Locked.TickerC, 40)]
              (Locked.Pause (Locked.NewPomodoro Work false 0) 10))
    as (_ & _ & Hrest).
  - left. reflexivity.
  - destruct (Hrest eq_refl) as (_ & _ & Hresume).
    apply (Hresume 50 eq_refl). vm_compute. split; discriminate.
Defined.

(** ** Increments *)

Lemma loop_increments_aligned (g : Durations) (evs : list (Select.Event * Time)) :
  forall state : PomodoroState,
    (End_ state) mod Second = 0 ->
    Forall (fun e => exists k, fst e = Select.Received (Select.incChannel (k * Second)))
      evs ->
    Paused (fst (Select.loop g state evs)) = Paused state /\
    Status (fst (Select.loop g state evs)) = Status state /\
    End_ (fst (Select.loop g state evs)) = End_ state + Select.increments evs.
Proof.
  induction evs as [| [ev now] evs IH]; intros state Hal Hall.
  - cbn [Select.loop fst Select.increments]. repeat split. lia.
  - inversion Hall as [| e evs' [k Hk] Hall']; subst. simpl fst in Hk. subst ev.
    rewrite loop_cons.
    set (s1 := Select.select_case g state
                 (Select.Received (Select.incChannel (k * Second))) now).
    assert (He1 : End_ s1 = End_ state + k * Second).
    { unfold s1. cbn [Select.select_case Select.receive Select.Inc End_].
      unfold Time_Add. rewrite Time_Round_shift, Time_Round_fixed by exact Hal.
      reflexivity. }
    assert (Hp1 : Paused s1 = Paused state) by reflexivity.
    assert (Hs1 : Status s1 = Status state) by reflexivity.
    destruct (IH s1) as (Hp' & Hs' & He'); [|exact Hall'|].
    + rewrite He1. rewrite Z.mod_add by (rewrite Second_value; lia). exact Hal.
    + split; [congruence|]. split; [congruence|].
      rewrite He', He1. cbn [Select.increments]. lia.
Qed.

(** Increments of whole seconds add up: after any number of them, one
    at least, the end of the period is its nearest whole second at the
    start plus their sum, in whatever order and at whatever instants
    they come, and phase and paused flag are as before. *)
Theorem increments_add (g : Durations) (state : PomodoroState)
  (evs : list (Select.Event * Time)) :
  evs <> [] ->
  Forall (fun e => exists k, fst e = Select.Received (Select.incChannel (k * Second)))
    evs ->
  Paused (fst (Select.loop g state evs)) = Paused state /\
  Status (fst (Select.loop g state evs)) = Status state /\
  End_ (fst (Select.loop g state evs))
  = Time_Round (End_ state) Second + Select.increments evs.
Proof.
  intros Hne Hall. destruct evs as [| [ev now] evs]; [contradiction|].
  inversion Hall as [| e evs' [k Hk] Hall']; subst. simpl fst in Hk. subst ev.
  rewrite loop_cons.
  set (s1 := Select.select_case g state
               (Select.Received (Select.incChannel (k * Second))) now).
  assert (He1 : End_ s1 = Time_Round (End_ state) Second + k * Second).
  { unfold s1. cbn [Select.select_case Select.receive Select.Inc End_].
    unfold Time_Add. apply Time_Round_shift. }
  destruct (loop_increments_aligned g evs s1) as (Hp' & Hs' & He'); [|exact Hall'|].
  - rewrite He1. rewrite Z.mod_add by (rewrite Second_value; lia).
    apply Time_Round_multiple.
  - split; [exact Hp'|]. split; [exact Hs'|].
    rewrite He', He1. cbn [Select.increments]. lia.
Qed.

Lemma increments_add_witness :
  End_ (fst (Select.loop Locked.durations
               (Select.NewPomodoro Locked.durations Work true 300)
               [(Select.Received (Select.incChannel (5 * Second)), 400);
                (Select.Received (Select.incChannel (- 5 * Second)), 500);
                (Select.Received (Select.incChannel (5 * Second)), 600)]))
  = Time_Round (300 + 25 * Minute) Second + 5 * Second.
Proof.
  apply (increments_add Locked.durations
           (Select.NewPomodoro Locked.durations Work true 300)
           [(Select.Received (Select.incChannel (5 * Second)), 400);
            (Select.Received (Select.incChannel (- 5 * Second)), 500);
            (Select.Received (Select.incChannel (5 * Second)), 600)]).
  - discriminate.
  - repeat constructor; [exists 5 | exists (- 5) | exists 5]; reflexivity.
Defined.

(** [Inc] on a running state sets the timer to fire at the old end of
    the period plus the increment, not rounded, which is at most half a
    second from the new end of the period; on a paused state it leaves
    the timer as it is. *)
Theorem Inc_timer (state : PomodoroState) (inc : Duration) (now : Time) :
  minDuration <= End_ state - now <= maxDuration ->
  minDuration <= End_ state - now + inc <= maxDuration ->
  (Paused state = false ->
   Timer (Select.Inc state inc now) = Some (End_ state + inc) /\
   2 * Z.abs (End_ (Select.Inc state inc now) - (End_ state + inc)) <= Second) /\
  (Paused state = true -> Timer (Select.Inc state inc now) = Timer state).
Proof.
  intros Hr Hri. split; intros Hp; cbn [Select.Inc Timer End_]; rewrite Hp;
    cbn [negb].
  - split.
    + unfold Timer_Reset. rewrite Time_Sub_exact by exact Hr.
      rewrite int64_small by (unfold minDuration, maxDuration in *; lia).
      f_equal. lia.
    + apply Time_Round_near.
  - reflexivity.
Qed.

Lemma Inc_timer_witness :
  Timer (Select.Inc (Locked.NewPomodoro Work false 300) (5 * Second) 400)
  = Some (300 + 25 * Minute + 5 * Second).
Proof.
  apply (Inc_timer (Locked.NewPomodoro Work false 300) (5 * Second) 400);
    [vm_compute; split; discriminate | vm_compute; split; discriminate
     | reflexivity].
Defined.

(** A decrement that takes a running state to the end of its period or
    past it makes the timer due at once, and the expiry the loop then
    meets switches the phase and starts a whole new period. *)
Theorem dec_past_zero (g : Durations) (state : PomodoroState) (inc : Duration)
  (now later : Time) :
  Paused state = false ->
  Status state = Work \/ Status state = Rest ->
  minDuration <= End_ state - now <= maxDuration ->
  minDuration <= End_ state - now + inc <= 0 ->
  now <= later ->
  let state' := Select.Inc state inc now in
  Select.ready state' Select.TimerC later = true /\
  Status (Select.select_case g state' Select.TimerC later) = 1 - Status state /\
  End_ (Select.select_case g state' Select.TimerC later)
  = later + GetDuration g (1 - Status state) /\
  Paused (Select.select_case g state' Select.TimerC later) = false.
Proof.
  intros Hp Hv Hr Hri Hlater state'.
  assert (Htimer : Timer state' = Some (End_ state + inc)).
  { unfold state'. cbn [Select.Inc Timer]. rewrite Hp. cbn [negb].
    unfold Timer_Reset. rewrite Time_Sub_exact by exact Hr.
    rewrite int64_small by (unfold minDuration, maxDuration in *; lia).
    f_equal. lia. }
  split.
  - unfold Select.ready. rewrite Htimer. apply Z.leb_le. lia.
  - subst state'. unfold Select.select_case. simpl Select.receive.
    cbn [Paused Select.Inc]. rewrite Hp. cbn [negb].
    assert (Hst : Z.rem (int64 (Status state + 1)) 2 = 1 - Status state).
    { unfold Work, Rest in Hv. destruct Hv as [-> | ->]; reflexivity. }
    cbn [Toggle Status End_ Paused Select.Inc]. rewrite Hst, ?Hp.
    unfold Time_Add. repeat split.
Qed.

Lemma dec_past_zero_witness :
  Status (Select.select_case Locked.durations
            (Select.Inc (Locked.NewPomodoro Work false 0) (- 5 * Second)
               (1497 * Second))
            Select.TimerC (1497 * Second))
  = Rest.
Proof.
  apply (dec_past_zero Locked.durations (Locked.NewPomodoro Work false 0)
           (- 5 * Second) (1497 * Second) (1497 * Second) eq_refl).
  - left. reflexivity.
  - vm_compute. split; discriminate.
  - vm_compute. split; discriminate.
  - vm_compute. discriminate.
Defined.

(** ** What every state of the program keeps *)

(** In every state the loop can be in, the phase is one of the two, the
    ticker is running, and a state that is not paused has its timer
    set: a running period always has its expiry ahead. *)
Theorem loop_invariant (g : Durations) (t : Time) (state : PomodoroState) :
  Select.reachable g t state ->
  (Status state = Work \/ Status state = Rest) /\
  (exists tick, Ticker state = Some tick) /\
  (Paused state = false -> exists fire, Timer state = Some fire).
Proof.
  intros Hreach.
  split; [apply (reachable_Status g t state Hreach)|].
  induction Hreach as [start | t state ev now Hr IH Hle Hready].
  - split; [eexists; reflexivity | discriminate].
  - destruct IH as [[tick Htick] Htimer].
    unfold Select.select_case.
    destruct ev as [| | [| | inc]]; simpl Select.receive; cbv zeta; cbn [Paused].
    + destruct (Paused state) eqn:Hp.
      * cbn [Select.Inc Ticker Paused Timer]. rewrite Htick, ?Hp.
        split; [eexists; reflexivity | discriminate].
      * cbn [Ticker Paused Timer]. rewrite Htick, ?Hp.
        split; [eexists; reflexivity | intros _; apply Htimer; reflexivity].
    + destruct (Paused state) eqn:Hp; cbn [negb].
      * cbn [Ticker Paused Timer]. rewrite ?Hp.
        split; [eexists; exact Htick | discriminate].
      * cbn [Toggle Ticker Paused Timer].
        split; [eexists; exact Htick | intros _; eexists; reflexivity].
    + cbn [Select.Pause Ticker Paused Timer].
      split; [eexists; exact Htick|].
      destruct (Paused state); [intros _; eexists; reflexivity | discriminate].
    + cbn [Toggle Ticker Paused Timer].
      split; [eexists; exact Htick | intros _; eexists; reflexivity].
    + cbn [Select.Inc Ticker Paused Timer].
      split; [eexists; exact Htick|].
      intros Hp. rewrite Hp. cbn [negb]. eexists; reflexivity.
Qed.

Lemma loop_invariant_witness :
  exists tick,
    Ticker (Select.select_case Locked.durations
              (Select.NewPomodoro Locked.durations Work true 0)
              (Select.Received Select.pauseChannel) 5)
    = Some tick.
Proof.
  apply (loop_invariant Locked.durations 5).
  apply (Select.reach_turn Locked.durations 0); [apply Select.reach_init | |].
  - vm_compute. discriminate.
  - reflexivity.
Defined.

Section Mutex.

Context {U : Unicode}.

Lemma run_app (state : PomodoroState) (ops : list (Locked.Op * Time))
  (op : Locked.Op) (now : Time) :
  Locked.run state (ops ++ [(op, now)])
  = Locked.step (Locked.run state ops) op now.
Proof.
  unfold Locked.run. rewrite fold_left_app. reflexivity.
Qed.

Lemma Locked_after_cases (conn : Conn) (state : PomodoroState) (now : Time) :
  Locked.after (Locked.HandleRequest conn state now) = state
  \/ Locked.after (Locked.HandleRequest conn state now) = Locked.Pause state now
  \/ Locked.after (Locked.HandleRequest conn state now)
     = Toggle Locked.durations state now.
Proof.
  unfold Locked.HandleRequest.
  destruct (conn_Read conn 128) as [buffer [e |]]; [left; reflexivity|].
  cbn [Locked.after].
  destruct (String.eqb (TrimSpace (ToLower buffer)) "pause"); [right; left; reflexivity|].
  destruct (String.eqb (TrimSpace (ToLower buffer)) "toggle"); [right; right; reflexivity|].
  left. reflexivity.
Qed.

(** In the version with the mutex, whatever [Update] and the handlers
    do and in whatever order, from the state that [main] makes: the
    phase is one of the two, the ticker is set exactly while the state
    is paused, and a state that is not paused has its timer set. *)
Theorem mutex_invariant (start : Time) (ops : list (Locked.Op * Time)) :
  let state := Locked.run (Locked.NewPomodoro Work false start) ops in
  (Status state = Work \/ Status state = Rest) /\
  (Paused state = true -> exists tick, Ticker state = Some tick) /\
  (Paused state = false -> Ticker state = None) /\
  (Paused state = false -> exists fire, Timer state = Some fire).
Proof.
  induction ops as [| [op now] ops IH] using rev_ind.
  - cbn. split; [left; reflexivity|]. split; [discriminate|].
    split; [reflexivity|]. intros _. eexists; reflexivity.
  - cbv zeta in *. rewrite run_app.
    set (state := Locked.run (Locked.NewPomodoro Work false start) ops) in *.
    destruct IH as (Hv & Hon & Hoff & Htimer).
    assert (Htoggle : forall at_,
               let s := Toggle Locked.durations state at_ in
               (Status s = Work \/ Status s = Rest) /\
               (Paused s = true -> exists tick, Ticker s = Some tick) /\
               (Paused s = false -> Ticker s = None) /\
               (Paused s = false -> exists fire, Timer s = Some fire)).
    { intros at_ s. split.
      - unfold s. rewrite Toggle_Status by exact Hv. unfold Work, Rest in *. lia.
      - unfold s. cbn [Toggle Paused Ticker Timer].
        split; [exact Hon|]. split; [exact Hoff|]. intros _. eexists; reflexivity. }
    assert (Hpause : forall at_,
               let s := Locked.Pause state at_ in
               (Status s = Work \/ Status s = Rest) /\
               (Paused s = true -> exists tick, Ticker s = Some tick) /\
               (Paused s = false -> Ticker s = None) /\
               (Paused s = false -> exists fire, Timer s = Some fire)).
    { intros at_ s. unfold s. cbn [Locked.Pause Status Paused Ticker Timer].
      split; [exact Hv|].
      destruct (Paused state); cbn [negb].
      - split; [discriminate|]. split; [reflexivity|]. intros _. eexists; reflexivity.
      - split; [intros _; eexists; reflexivity|]. split; discriminate. }
    destruct op as [[|] | conn]; cbn [Locked.step].
    + apply Htoggle.
    + cbn [Locked.Update_case Status Paused Ticker Timer].
      split; [exact Hv|]. split; [|split].
      * intros Hp. destruct (Hon Hp) as [tick ->]. eexists; reflexivity.
      * intros Hp. rewrite (Hoff Hp). reflexivity.
      * exact Htimer.
    + destruct (Locked_after_cases conn state now) as [-> | [-> | ->]].
      * repeat split; assumption.
      * apply Hpause.
      * apply Htoggle.
Qed.

End Mutex.

(** ** More on the handler *)

Section Requests.

Context {U : Unicode}.

(** A handler prints exactly when its read fails, and then one line
    with the error, in both versions alike; what came with the error is
    dropped, so nothing is sent and the state stays. A peer that
    connects and closes without a byte is such a failure: the line is
    [Error reading: EOF]. *)
Theorem handler_diagnostics (conn : Conn) (state : PomodoroState) (now : Time) :
  Select.printed (Select.HandleRequest conn)
  = Locked.printed (Locked.HandleRequest conn state now) /\
  (forall e, snd (conn_Read conn 128) = Some e ->
     Select.printed (Select.HandleRequest conn) = ["Error reading: " ++ e]%string /\
     Select.sent (Select.HandleRequest conn) = None /\
     Locked.after (Locked.HandleRequest conn state now) = state) /\
  (snd (conn_Read conn 128) = None ->
     Select.printed (Select.HandleRequest conn) = []) /\
  (failure conn = None -> incoming conn = EmptyString ->
     Select.printed (Select.HandleRequest conn) = ["Error reading: EOF"%string]) /\
  (forall e, failure conn = Some e ->
     Select.printed (Select.HandleRequest conn) = ["Error reading: " ++ e]%string /\
     Select.sent (Select.HandleRequest conn) = None).
Proof.
  unfold Select.HandleRequest, Locked.HandleRequest, conn_Read.
  destruct conn as [data [e |]]; cbn [failure incoming].
  - cbn [snd Select.printed Locked.printed Select.sent Locked.after].
    split; [reflexivity|].
    split; [intros e' He'; injection He' as <-; repeat split|].
    split; [discriminate|].
    split; [discriminate|].
    intros e' He'. injection He' as <-. repeat split.
  - destruct data as [| c data];
      cbn [snd Select.printed Locked.printed Select.sent Locked.after].
    + split; [reflexivity|].
      split; [intros e' He'; injection He' as <-; repeat split|].
      split; [discriminate|].
      split; [reflexivity|].
      discriminate.
    + split; [reflexivity|].
      split; [discriminate|].
      split; [reflexivity|].
      split; [discriminate|].
      discriminate.
Qed.

Lemma prefix_empty (s : string) :
  substring 0 128 s = EmptyString -> s = EmptyString.
Proof.
  destruct s; [reflexivity | discriminate].
Qed.

(** A handler sees the first 128 bytes of what has arrived and nothing
    else: two connections that agree on them are handled alike, in what
    is printed, what is sent and what becomes of the state. *)
Theorem only_first_128 (conn conn' : Conn) (state : PomodoroState) (now : Time) :
  failure conn = None -> failure conn' = None ->
  substring 0 128 (incoming conn) = substring 0 128 (incoming conn') ->
  Select.HandleRequest conn = Select.HandleRequest conn' /\
  Locked.HandleRequest conn state now = Locked.HandleRequest conn' state now.
Proof.
  intros Hf Hf' Hsame.
  assert (Hread : conn_Read conn 128 = conn_Read conn' 128).
  { unfold conn_Read. rewrite Hf, Hf'.
    destruct (incoming conn) as [| c data] eqn:Hin.
    - symmetry in Hsame. apply prefix_empty in Hsame. rewrite Hsame. reflexivity.
    - destruct (incoming conn') as [| c' data'] eqn:Hin'.
      + apply prefix_empty in Hsame. discriminate Hsame.
      + rewrite Hsame. reflexivity. }
  unfold Select.HandleRequest, Locked.HandleRequest. rewrite Hread.
  split; reflexivity.
Qed.

Lemma mapBytes_prefix (f : ascii -> ascii) (s : string) :
  forall k, mapBytes f (substring 0 k s) = substring 0 k (mapBytes f s).
Proof.
  induction s as [| c s IH]; intros [| k]; simpl; try reflexivity.
  rewrite IH. reflexivity.
Qed.

Lemma isASCII_prefix (s : string) (k : nat) :
  isASCII s = true -> isASCII (substring 0 k s) = true.
Proof.
  intros Ha. apply isASCII_Forall. rewrite list_of_prefix.
  apply Forall_prefix. apply isASCII_Forall. exact Ha.
Qed.

Lemma mapBytes_empty (f : ascii -> ascii) (s : string) :
  mapBytes f s = EmptyString -> s = EmptyString.
Proof.
  destruct s; [reflexivity | discriminate].
Qed.

(** The case of ASCII letters does not matter: two ASCII messages
    that are the same once every capital is made small are handled
    alike, whatever they say. *)
Theorem case_insensitive (conn conn' : Conn) (state : PomodoroState) (now : Time) :
  failure conn = None -> failure conn' = None ->
  isASCII (incoming conn) = true -> isASCII (incoming conn') = true ->
  mapBytes lowerByte (incoming conn) = mapBytes lowerByte (incoming conn') ->
  Select.HandleRequest conn = Select.HandleRequest conn' /\
  Locked.after (Locked.HandleRequest conn state now)
  = Locked.after (Locked.HandleRequest conn' state now).
Proof.
  intros Hf Hf' Ha Ha' Hsame.
  unfold Select.HandleRequest, Locked.HandleRequest, conn_Read.
  rewrite Hf, Hf'.
  destruct (incoming conn) as [| c data] eqn:Hin.
  - symmetry in Hsame. apply mapBytes_empty in Hsame. rewrite Hsame.
    split; reflexivity.
  - destruct (incoming conn') as [| c' data'] eqn:Hin'.
    + apply mapBytes_empty in Hsame. discriminate Hsame.
    + assert (Hlow : ToLower (substring 0 128 (String c data))
                     = ToLower (substring 0 128 (String c' data'))).
      { rewrite !ToLower_ascii by (apply isASCII_prefix; assumption).
        rewrite !mapBytes_prefix, Hsame. reflexivity. }
      rewrite Hlow. split; reflexivity.
Qed.

End Requests.

Lemma only_first_128_witness :
  Select.sent
    (Select.HandleRequest (U := ascii_only)
       {| incoming := "inc" ++ string_of_list_ascii (repeat " "%char 125) ++ "x";
          failure := None |})
  = Select.sent
      (Select.HandleRequest (U := ascii_only)
         {| incoming := "inc" ++ string_of_list_ascii (repeat " "%char 125) ++ "yz";
            failure := None |}).
Proof.
  destruct (only_first_128 (U := ascii_only)
              {| incoming := "inc" ++ string_of_list_ascii (repeat " "%char 125) ++ "x";
                 failure := None |}
              {| incoming := "inc" ++ string_of_list_ascii (repeat " "%char 125) ++ "yz";
                 failure := None |}
              (Locked.NewPomodoro Work false 0) 0 eq_refl eq_refl eq_refl)
    as [Hsame _].
  rewrite Hsame. reflexivity.
Defined.

Lemma case_insensitive_witness :
  Select.HandleRequest (U := ascii_only) {| incoming := "ToGgLe"; failure := None |}
  = Select.HandleRequest (U := ascii_only) {| incoming := "toggle"; failure := None |}.
Proof.
  apply (case_insensitive (U := ascii_only)
           {| incoming := "ToGgLe"; failure := None |}
           {| incoming := "toggle"; failure := None |}
           (Locked.NewPomodoro Work false 0) 0);
    reflexivity.
Defined.

(** ** A field wider than two digits *)

(** With a hundred minutes or more left the minutes do not fit the two
    digits of [MM:SS]: [%02d] gives three bytes or more. *)
Theorem wide_minutes (state : PomodoroState) (now : Time) :
  100 * Minute <= End_ state - now <= maxDuration - Second ->
  100 <= minutes state now /\
  (3 <= String.length (fmt_02d (minutes state now)))%nat.
Proof.
  intros Hrem.
  assert (Hsub : Time_Sub (End_ state) now = End_ state - now).
  { apply Time_Sub_exact. unfold minDuration, maxDuration in *.
    rewrite Minute_value, Second_value in *. lia. }
  destruct (Duration_Round_Second_near (End_ state - now)) as [Hmul Hnear].
  { unfold minDuration, maxDuration in *.
    rewrite Minute_value, Second_value in *. lia. }
  pose proof (elapsedTime_range state now) as Hrange.
  unfold elapsedTime in Hrange. rewrite Hsub in Hrange.
  assert (Hm : 100 <= minutes state now).
  { unfold minutes, int_Minutes, elapsedTime. rewrite Hsub.
    apply Z.quot_le_lower_bound; [reflexivity|].
    pose proof (Z.div_mod (Duration_Round (End_ state - now) Second) Second) as Hdiv.
    rewrite Hmul in Hdiv.
    rewrite Minute_value, Second_value in *. lia. }
  split; [exact Hm|].
  assert (Hup : minutes state now < 2 ^ 63).
  { unfold minutes, int_Minutes, elapsedTime. rewrite Hsub.
    pose proof (Z.mul_quot_le (Duration_Round (End_ state - now) Second) Minute) as H.
    unfold maxDuration in Hrange.
    rewrite Minute_value, Second_value in *. lia. }
  set (v := minutes state now) in *.
  unfold fmt_02d.
  destruct (Z.ltb_spec v 0) as [Hneg | _]; [lia|].
  unfold uint64. rewrite Z.mod_small by lia.
  change (fmt_digits 20 v EmptyString)
    with (if 10 <=? v
          then fmt_digits 19 (v / 10) (String (byte_of (48 + v - v / 10 * 10)) EmptyString)
          else String (byte_of (48 + v)) EmptyString).
  destruct (Z.leb_spec 10 v) as [_ | Hlt]; [|lia].
  change (fmt_digits 19 (v / 10) (String (byte_of (48 + v - v / 10 * 10)) EmptyString))
    with (if 10 <=? v / 10
          then fmt_digits 18 (v / 10 / 10)
                 (String (byte_of (48 + v / 10 - v / 10 / 10 * 10))
                    (String (byte_of (48 + v - v / 10 * 10)) EmptyString))
          else String (byte_of (48 + v / 10))
                 (String (byte_of (48 + v - v / 10 * 10)) EmptyString)).
  assert (H10 : 10 <= v / 10) by (apply Z.div_le_lower_bound; lia).
  destruct (Z.leb_spec 10 (v / 10)) as [_ | Hlt]; [|lia].
  match goal with
  | |- context [fmt_digits 18 ?u ?acc] =>
      destruct (fmt_digits_length 18 u acc) as [_ Hlen];
      specialize (Hlen ltac:(discriminate));
      cbn [String.length] in Hlen;
      set (ds := fmt_digits 18 u acc) in *
  end.
  replace (2 - String.length ds)%nat with O by lia.
  exact Hlen.
Qed.

Lemma wide_minutes_witness :
  (3 <= String.length
          (fmt_02d (minutes (Select.NewPomodoro (Select.main_durations 120%Z 5%Z)
                               Work true 0%Z) 0%Z)))%nat.
Proof.
  apply (wide_minutes (Select.NewPomodoro (Select.main_durations 120 5) Work true 0) 0).
  vm_compute. split; discriminate.
Defined.

Lemma mutex_invariant_witness :
  exists tick,
    Ticker (Locked.run (U := ascii_only) (Locked.NewPomodoro Work false 0)
              [(Locked.FromRequest {| incoming := "pause"; failure := None |}, 5);
               (Locked.FromUpdate Locked.TickerC, 1000000005)])
    = Some tick.
Proof.
  apply (mutex_invariant (U := ascii_only) 0
           [(Locked.FromRequest {| incoming := "pause"; failure := None |}, 5);
            (Locked.FromUpdate Locked.TickerC, 1000000005)]).
  reflexivity.
Defined.

Lemma handler_diagnostics_witness :
  Select.printed
    (Select.HandleRequest (U := ascii_only)
       {| incoming := EmptyString; failure := None |})
  = ["Error reading: EOF"%string].
Proof.
  destruct (handler_diagnostics (U := ascii_only)
              {| incoming := EmptyString; failure := None |}
              (Locked.NewPomodoro Work false 0) 0)
    as (_ & _ & _ & Hempty & _).
  apply Hempty; reflexivity.
Defined.
